(** * A shallow embedding of the MCP test server and of the protocol engine it exercises

    The server is [startServer] of [src/server/index.ts]: one [McpServer] whose
    request handlers close over a subscription set and a log threshold, a few
    long-running handlers that poll an abort signal, and two HTTP routes that
    attach sessions to that one server.  Handlers are embedded as functions on
    an explicit [ServerState]; what a handler hands to the SDK's own send
    methods is recorded, in order, in the state's [sent] list. *)

From Stdlib Require Import ZArith Lia.
From stdpp Require Import base strings list gmap pretty sorting.

(** ** Values a handler can throw *)

(** The [data] argument of [McpError] is always an object [{ uri }] here. *)
Record ErrorData := { data_uri : string }.

(** [McpError code message data] is [new McpError(code, message, data)];
    [JsError message] is [new Error(message)], which has no [code] property;
    [NonError code] is any thrown value that is not an [Error] instance,
    whatever its [code] property holds. *)
Inductive Thrown :=
| McpError (code : Z) (message : string) (data : option ErrorData)
| JsError (message : string)
| NonError (code : option Z).

(** [e instanceof Error] *)
Definition instanceof_Error (e : Thrown) : bool :=
  match e with
  | McpError _ _ _ | JsError _ => true
  | NonError _ => false
  end.

(** [(e as any).code] *)
Definition code_of (e : Thrown) : option Z :=
  match e with
  | McpError c _ _ => Some c
  | JsError _ => None
  | NonError c => c
  end.

(** The completion of an async handler: it resolves or it rejects. *)
Inductive Outcome (A : Type) :=
| Return (a : A)
| Throw (e : Thrown).
Arguments Return {A} a.
Arguments Throw {A} e.

(** The result [{}]. *)
Inductive EmptyResult := empty_result.

(** ** Notifications *)

Inductive ProgressToken :=
| TokenNum (n : Z)
| TokenStr (s : string).

Record LoggingMessageParams := {
  level : string;
  logger : option string;
  data : string
}.

Record ProgressParams := {
  progressToken : ProgressToken;
  progress : nat;
  total : nat;
  message : string
}.

Inductive Notification :=
| ResourceUpdatedNotification (uri : string)
| LoggingMessageNotification (params : LoggingMessageParams)
| ProgressNotification (params : ProgressParams).

(** ** The state [startServer] closes over *)

Record LoggingServerTransport := { sessionId : string }.

Record ServerState := {
  subscribedResources : gset string;
  currentLogLevel : string;
  transports : gmap string LoggingServerTransport;
  sent : list Notification
}.

Definition set_subscribedResources (f : gset string → gset string) (s : ServerState) : ServerState :=
  {| subscribedResources := f (subscribedResources s);
     currentLogLevel := currentLogLevel s;
     transports := transports s;
     sent := sent s |}.

Definition set_currentLogLevel (l : string) (s : ServerState) : ServerState :=
  {| subscribedResources := subscribedResources s;
     currentLogLevel := l;
     transports := transports s;
     sent := sent s |}.

Definition set_transports
    (f : gmap string LoggingServerTransport → gmap string LoggingServerTransport)
    (s : ServerState) : ServerState :=
  {| subscribedResources := subscribedResources s;
     currentLogLevel := currentLogLevel s;
     transports := f (transports s);
     sent := sent s |}.

(** Handing a notification to the SDK server the overrides were bound from. *)
Definition send (n : Notification) (s : ServerState) : ServerState :=
  {| subscribedResources := subscribedResources s;
     currentLogLevel := currentLogLevel s;
     transports := transports s;
     sent := sent s ++ [n] |}.

(** The state right after [startServer]: [new Set()], ['info'], [{}]. *)
Definition startServer : ServerState :=
  {| subscribedResources := ∅;
     currentLogLevel := "info";
     transports := ∅;
     sent := [] |}.

(** ** Subscriptions (index.ts lines 56-73) *)

Definition subscribeHandler (uri : string) (s : ServerState) : Outcome EmptyResult * ServerState :=
  (Return empty_result, set_subscribedResources (λ X, {[uri]} ∪ X) s).

Definition unsubscribeHandler (uri : string) (s : ServerState) : Outcome EmptyResult * ServerState :=
  (Return empty_result, set_subscribedResources (λ X, X ∖ {[uri]}) s).

Definition originalSendResourceUpdated (uri : string) (s : ServerState) : ServerState :=
  send (ResourceUpdatedNotification uri) s.

Definition sendResourceUpdated (uri : string) (s : ServerState) : ServerState :=
  if decide (uri ∈ subscribedResources s) then originalSendResourceUpdated uri s else s.

(** ** Logging (index.ts lines 75-89) *)

Definition levels : list string :=
  ["debug"; "info"; "notice"; "warning"; "error"; "critical"; "alert"; "emergency"].

(** [Array.prototype.includes] on strings. *)
Fixpoint includes (l : list string) (x : string) : bool :=
  match l with
  | [] => false
  | y :: l' => if String.eqb y x then true else includes l' x
  end.

(** [Array.prototype.indexOf] on strings: the first position, or [-1]. *)
Fixpoint indexOf_from (i : Z) (l : list string) (x : string) : Z :=
  match l with
  | [] => (-1)%Z
  | y :: l' => if String.eqb y x then i else indexOf_from (i + 1)%Z l' x
  end.

Definition indexOf (l : list string) (x : string) : Z := indexOf_from 0%Z l x.

Definition setLevelHandler (lvl : string) (s : ServerState) : Outcome EmptyResult * ServerState :=
  (Return empty_result, if includes levels lvl then set_currentLogLevel lvl s else s).

Definition originalSendLoggingMessage (params : LoggingMessageParams) (s : ServerState) : ServerState :=
  send (LoggingMessageNotification params) s.

Definition sendLoggingMessage (params : LoggingMessageParams) (s : ServerState) : ServerState :=
  if (indexOf levels (level params) >=? indexOf levels (currentLogLevel s))%Z
  then originalSendLoggingMessage params s
  else s.

(** The eight severities of the specification and their rank in its order
    debug < info < notice < warning < error < critical < alert < emergency. *)
Inductive Severity :=
| Debug | Info | Notice | Warning | Error | Critical | Alert | Emergency.

Definition severity_name (v : Severity) : string :=
  match v with
  | Debug => "debug" | Info => "info" | Notice => "notice" | Warning => "warning"
  | Error => "error" | Critical => "critical" | Alert => "alert" | Emergency => "emergency"
  end.

Definition severity_rank (v : Severity) : nat :=
  match v with
  | Debug => 0 | Info => 1 | Notice => 2 | Warning => 3
  | Error => 4 | Critical => 5 | Alert => 6 | Emergency => 7
  end.

(** Modelled from the spec: the validation of a logging/setLevel request that
    the SDK makes with [SetLevelRequestSchema] before it calls the handler
    registered under that schema; the schema's code is not part of the
    sources.  Section 4.4 has the level validated to be "one of the eight
    defined severities, else fails with an invalid-parameter error"; -32602
    is the code under which the read override knows the SDK's invalid-params
    error (index.ts line 217). *)
Definition SetLevelRequestSchema_parse (lvl : string) : Outcome string :=
  if existsb (λ v, String.eqb (severity_name v) lvl)
       [Debug; Info; Notice; Warning; Error; Critical; Alert; Emergency]
  then Return lvl
  else Throw (McpError (-32602) "Invalid params" None).

(** The handler as [setRequestHandler(SetLevelRequestSchema, ...)] registers
    it (index.ts line 78): the request is parsed with the schema, and the
    arrow function runs on what the parse returns. *)
Definition setLevelRequestHandler (lvl : string) (s : ServerState)
    : Outcome EmptyResult * ServerState :=
  match SetLevelRequestSchema_parse lvl with
  | Return l => setLevelHandler l s
  | Throw e => (Throw e, s)
  end.

(** ** Sessions (index.ts lines 225-243) *)

(** The requests whose handlers [startServer] installs over shared state. *)
Inductive ClientRequest :=
| SubscribeRequest (uri : string)
| UnsubscribeRequest (uri : string)
| SetLevelRequest (lvl : string).

(** Every transport is connected to the one [mcpServer]; a request reaches the
    handler registered for its method, whichever transport carried it. *)
Definition dispatch (req : ClientRequest) (s : ServerState) : Outcome EmptyResult * ServerState :=
  match req with
  | SubscribeRequest uri => subscribeHandler uri s
  | UnsubscribeRequest uri => unsubscribeHandler uri s
  | SetLevelRequest lvl => setLevelRequestHandler lvl s
  end.

(** [GET /sse]: a fresh transport, stored under its session id, which is the
    random UUID the SDK gave the transport. *)
Definition getSse (sid : string) (s : ServerState) : ServerState :=
  set_transports (λ T, <[sid := {| sessionId := sid |}]> T) s.

(** [transport.onclose] *)
Definition onclose (sid : string) (s : ServerState) : ServerState :=
  set_transports (λ T, delete sid T) s.

(** The property names a plain object inherits from [Object.prototype]. *)
Definition Object_prototype_names : list string :=
  ["constructor"; "__proto__"; "hasOwnProperty"; "isPrototypeOf"; "propertyIsEnumerable";
   "toLocaleString"; "toString"; "valueOf"; "__defineGetter__"; "__defineSetter__";
   "__lookupGetter__"; "__lookupSetter__"].

(** How a post ends: with status 404, with the request handled by the
    server, or with the [TypeError] of calling the [handlePostMessage] that a
    value inherited from [Object.prototype] does not have. *)
Inductive PostResponse :=
| SessionNotFound
| Handled (r : Outcome EmptyResult)
| NotAFunction.

(** [POST /messages?sessionId=...].  [transports] is a plain object, so
    [transports[sessionId]] is the transport stored under the id or else
    what the object inherits under that name; an inherited value is truthy
    and passes the [!transport] test. *)
Definition postMessages (sid : string) (req : ClientRequest) (s : ServerState) : PostResponse * ServerState :=
  match transports s !! sid with
  | Some _ => let '(r, s') := dispatch req s in (Handled r, s')
  | None =>
      if includes Object_prototype_names sid then (NotAFunction, s)
      else (SessionNotFound, s)
  end.

(** ** Long-running handlers (index.ts lines 101-205) *)

Record RequestMeta := { meta_progressToken : option ProgressToken }.

(** What a handler is given besides its arguments.  [signal_aborted i] is the
    value [signal.aborted] holds when the handler reads it at the top of
    iteration [i] of its loop; the signal may change while the handler awaits
    its timer, so the readings are independent of one another.
    [sendNotification n] is how the promise of sending [n] settles: [None]
    when it resolves, [Some e] when it rejects with [e]. *)
Record RequestHandlerExtra := {
  _meta : option RequestMeta;
  signal_aborted : nat → bool;
  sendNotification : Notification → option Thrown
}.

(** A handler run: what it passed to [sendNotification], in order (a
    notification whose sending rejected included), and how it completed. *)
Definition Run (A : Type) : Type := list Notification * Outcome A.

(** [_meta?.progressToken ?? 0] *)
Definition token_of (extra : RequestHandlerExtra) : ProgressToken :=
  match _meta extra with
  | Some m =>
      match meta_progressToken m with
      | Some t => t
      | None => TokenNum 0
      end
  | None => TokenNum 0
  end.

Definition step_notification (extra : RequestHandlerExtra) (steps i : nat) : Notification :=
  ProgressNotification
    {| progressToken := token_of extra;
       progress := i;
       total := steps;
       message := "Step " +:+ pretty i |}.

(** The body shared by the four loops
    [for (let i = 1; i <= steps; i++) { if (signal.aborted) throw new Error('Cancelled');
       await timer; await sendNotification(...) }],
    from iteration [i] on with [n] iterations left; [None] when the loop ends
    normally.  Nothing catches a rejection of the awaited [sendNotification]:
    it ends the handler. *)
Fixpoint progress_loop (extra : RequestHandlerExtra) (steps n i : nat)
    (out : list Notification) : list Notification * option Thrown :=
  match n with
  | 0 => (out, None)
  | S n' =>
      if signal_aborted extra i then (out, Some (JsError "Cancelled"))
      else
        match sendNotification extra (step_notification extra steps i) with
        | Some e => (out ++ [step_notification extra steps i], Some e)
        | None =>
            progress_loop extra steps n' (S i) (out ++ [step_notification extra steps i])
        end
  end.

(** The loop from [i = 1], followed by [return result]. *)
Definition run_steps {A : Type} (extra : RequestHandlerExtra) (steps : nat) (result : A) : Run A :=
  match progress_loop extra steps steps 1 [] with
  | (out, Some e) => (out, Throw e)
  | (out, None) => (out, Return result)
  end.

(** What it means for a handler that polls the signal at [steps] checkpoints
    and returns [result] to cancel cooperatively.  If no checkpoint reads the
    signal aborted and every sending resolves, it sends the [steps] progress
    notifications and returns [result].  If checkpoint [k] is the first to
    read the signal aborted, the sendings before it having resolved, it has
    sent the notifications of the iterations before [k], sends nothing more
    and throws [Error('Cancelled')].  If the sending of iteration [k] is the
    first to reject, no checkpoint up to [k] having read the signal aborted,
    the handler makes no further call and throws what the sending rejected
    with.  And nothing but the readings at the checkpoints and the outcomes
    of the sendings matters. *)
Definition cooperative {A : Type} (steps : nat) (handler : RequestHandlerExtra → Run A)
    (result : A) : Prop :=
  (∀ extra,
     (∀ j, 1 ≤ j ≤ steps → signal_aborted extra j = false) →
     (∀ j, 1 ≤ j ≤ steps → sendNotification extra (step_notification extra steps j) = None) →
     handler extra = (map (step_notification extra steps) (seq 1 steps), Return result))
  ∧ (∀ extra k,
       1 ≤ k ≤ steps →
       signal_aborted extra k = true →
       (∀ j, 1 ≤ j < k → signal_aborted extra j = false) →
       (∀ j, 1 ≤ j < k → sendNotification extra (step_notification extra steps j) = None) →
       handler extra
       = (map (step_notification extra steps) (seq 1 (k - 1)), Throw (JsError "Cancelled")))
  ∧ (∀ extra k e,
       1 ≤ k ≤ steps →
       sendNotification extra (step_notification extra steps k) = Some e →
       (∀ j, 1 ≤ j ≤ k → signal_aborted extra j = false) →
       (∀ j, 1 ≤ j < k → sendNotification extra (step_notification extra steps j) = None) →
       handler extra = (map (step_notification extra steps) (seq 1 k), Throw e))
  ∧ (∀ extra extra',
       _meta extra = _meta extra' →
       (∀ j, 1 ≤ j ≤ steps → signal_aborted extra j = signal_aborted extra' j) →
       (∀ j, 1 ≤ j ≤ steps →
          sendNotification extra (step_notification extra steps j)
          = sendNotification extra' (step_notification extra' steps j)) →
       handler extra = handler extra').

(** A signal that is never aborted, and one that is aborted from its [k]-th
    reading on; a [sendNotification] that always resolves, and one that
    always rejects with [e]. *)
Definition never_aborted : nat → bool := λ _, false.
Definition aborted_from (k : nat) : nat → bool := λ i, k <=? i.
Definition always_resolves : Notification → option Thrown := λ _, None.
Definition always_rejects (e : Thrown) : Notification → option Thrown := λ _, Some e.

(** The request's metadata with the progress token [t]. *)
Definition with_progressToken (t : ProgressToken) (extra : RequestHandlerExtra)
    : RequestHandlerExtra :=
  {| _meta := Some {| meta_progressToken := Some t |};
     signal_aborted := signal_aborted extra;
     sendNotification := sendNotification extra |}.

Record TextContent := { content_type : string; text : string }.
Record CallToolResult := { content : list TextContent }.
Record PromptMessage := { role : string; message_content : TextContent }.
Record GetPromptResult := { description : string; messages : list PromptMessage }.
Record ResourceContents := { contents_uri : string; mimeType : string; contents_text : string }.
Record ReadResourceResult := { contents : list ResourceContents }.

(** Tool [slow_echo]; [delay] only sets the length of the timer. *)
Definition slow_echo (msg : string) (delay : Z) (extra : RequestHandlerExtra) : Run CallToolResult :=
  run_steps extra 5 {| content := [{| content_type := "text"; text := msg |}] |}.

(** Prompt [slow_prompt]. *)
Definition slow_prompt (msg : string) (extra : RequestHandlerExtra) : Run GetPromptResult :=
  run_steps extra 5
    {| description := "Slow prompt";
       messages := [{| role := "user";
                       message_content := {| content_type := "text"; text := msg |} |}] |}.

Definition newline : string := String (Ascii.ascii_of_nat 10) EmptyString.
Definition dquote : string := String (Ascii.ascii_of_nat 34) EmptyString.

Definition main_rs_text : string :=
  "fn main() {" +:+ newline +:+ "    println!(" +:+ dquote +:+ "Hello world!" +:+ dquote
  +:+ ");" +:+ newline +:+ "}".

(** A WHATWG [URL]; [toString()] returns its [href]. *)
Record URL := { href : string }.

(** Resource [main-rs]. *)
Definition main_rs (_uri : URL) (extra : RequestHandlerExtra) : Run ReadResourceResult :=
  ([], Return {| contents := [{| contents_uri := "file:///project/src/main.rs";
                                 mimeType := "text/x-rust";
                                 contents_text := main_rs_text |}] |}).

(** Resource [slow-resource]. *)
Definition slow_resource (_uri : URL) (extra : RequestHandlerExtra) : Run ReadResourceResult :=
  run_steps extra 3
    {| contents := [{| contents_uri := "file:///slow/data.txt";
                       mimeType := "text/plain";
                       contents_text := "slow resource" |}] |}.

(** The variables a [ResourceTemplate] extracts from a uri. *)
Record Variables := { path : string }.

(** Resource template [file-template] on [http://example.com/{+path}]. *)
Definition file_template (_uri : URL) (vars : Variables) (extra : RequestHandlerExtra)
    : Run ReadResourceResult :=
  if String.eqb (path vars) "project/src/main.rs" then
    ([], Return {| contents := [{| contents_uri := "http://example.com/project/src/main.rs";
                                   mimeType := "text/x-rust";
                                   contents_text := main_rs_text |}] |})
  else if String.eqb (path vars) "slow/data.txt" then
    run_steps extra 3
      {| contents := [{| contents_uri := "http://example.com/slow/data.txt";
                         mimeType := "text/plain";
                         contents_text := "slow resource" |}] |}
  else
    ([], Throw (McpError (-32002) "Resource not found" (Some {| data_uri := href _uri |}))).

(** ** The [resources/read] override (index.ts lines 208-223) *)

Record ReadResourceRequest := { read_uri : string }.

Definition ReadHandler : Type :=
  ReadResourceRequest → RequestHandlerExtra → Run ReadResourceResult.

(** The handler installed in place of [origReadHandler], the one the SDK had
    registered under ['resources/read']. *)
Definition readOverride (origReadHandler : ReadHandler) : ReadHandler :=
  λ request extra,
    match origReadHandler request extra with
    | (out, Return r) => (out, Return r)
    | (out, Throw e) =>
        if instanceof_Error e && bool_decide (code_of e = Some (-32602)%Z)
        then (out, Throw (McpError (-32002) "Resource not found"
                            (Some {| data_uri := read_uri request |})))
        else (out, Throw e)
    end.

(** [strip_prefix p s] is [Some r] when [s = p ++ r]. *)
Fixpoint strip_prefix (p s : string) : option string :=
  match p, s with
  | EmptyString, _ => Some s
  | String a p', String b s' => if Ascii.eqb a b then strip_prefix p' s' else None
  | String _ _, EmptyString => None
  end.

(** Matching a uri against [http://example.com/{+path}]: the prefix, then a
    non-empty [path]. *)
Definition httpTemplate_match (uri : string) : option Variables :=
  match strip_prefix "http://example.com/" uri with
  | Some (String a r) => Some {| path := String a r |}
  | _ => None
  end.


(** Modelled from the spec: the handler the SDK's [McpServer] registers for
    resources/read, which the override wraps as [origReadHandler] and whose
    code is not part of the sources; the specification has no more on it than
    that resources/read is dispatched to a handler.  It builds [new URL(uri)],
    which throws a [TypeError] (an [Error] whose [code] is no number) for a
    string that is no URL; it then looks the normalised uri up among the
    resources registered under an exact uri, then among the templates, and
    otherwise throws the invalid-params error with code -32602 the override
    is written to catch.  The URL constructor, [new_URL], is a parameter:
    [None] where it throws, and else the URL with its normalised [href]. *)
Definition sdkReadHandler (new_URL : string → option URL) : ReadHandler :=
  λ request extra,
    match new_URL (read_uri request) with
    | None => ([], Throw (JsError "Invalid URL"))
    | Some uri =>
        if String.eqb (href uri) "file:///project/src/main.rs" then main_rs uri extra
        else if String.eqb (href uri) "file:///slow/data.txt" then slow_resource uri extra
        else match httpTemplate_match (href uri) with
             | Some vars => file_template uri vars extra
             | None =>
                 ([], Throw (McpError (-32602) ("Resource " +:+ href uri +:+ " not found") None))
             end
    end.

(** Whether a string starts with a URL scheme: a letter, then letters,
    digits, [+], [-] or [.], then a colon. *)
Definition is_letter (c : Ascii.ascii) : bool :=
  let n := Ascii.nat_of_ascii c in (65 <=? n) && (n <=? 90) || (97 <=? n) && (n <=? 122).

Definition is_scheme_char (c : Ascii.ascii) : bool :=
  let n := Ascii.nat_of_ascii c in
  is_letter c || (48 <=? n) && (n <=? 57) || (n =? 43) || (n =? 45) || (n =? 46).

Fixpoint scheme_ends (s : string) : bool :=
  match s with
  | EmptyString => false
  | String c r => if (Ascii.nat_of_ascii c =? 58) then true
                  else if is_scheme_char c then scheme_ends r else false
  end.

Definition has_scheme (s : string) : bool :=
  match s with
  | EmptyString => false
  | String c r => is_letter c && scheme_ends r
  end.

(** Modelled from the spec: an instance of the platform's URL constructor for
    the examples below, where the theorems take the constructor as a
    parameter.  Like [new URL(s)] without a base, it throws for a string with
    no scheme; every other string it takes as already normalised, which the
    uris of the examples are. *)
Definition new_URL_of_normalised (s : string) : option URL :=
  if has_scheme s then Some {| href := s |} else None.

(** ** The paginated listing handler (serverutilites.test.ts lines 108-113) *)





(** JSON values, as far as a request envelope needs them. *)
#[warnings="-register-all"]
Inductive JSON :=
| JString (s : string)
| JNumber (n : Z)
| JObject (fields : list (string * JSON)).


(** The server with two sessions attached, ["a"] and then ["b"]. *)
Definition two_sessions : ServerState := getSse "b" (getSse "a" startServer).

(** Requests handled one after the other. *)
Definition serve (reqs : list ClientRequest) (s : ServerState) : ServerState :=
  fold_left (λ s r, snd (dispatch r s)) reqs s.

(** ** The correlation table of a session (specification sections 3, 4.1 and 4.2)

    The engine that allocates request ids and completes pending calls is the
    SDK's, which the repository only calls and tests; its model below follows
    the specification. *)

Module Protocol.

(** Modelled from the spec: the PendingRequest of section 3, as far as the
    correlation table reads it; the SDK's own record is not part of the
    sources. *)
Record PendingRequest := {
  method : string;
  progressToken : option ProgressToken
}.

(** Modelled from the spec: the three terminal states section 3 gives a
    pending request of the SDK's engine: resolved with a result, resolved
    with an error, cancelled locally. *)
Inductive TerminalState :=
| ResolvedWithResult (result : string)
| ResolvedWithError (code : Z) (message : string)
| CancelledLocally (reason : option string).

(** Modelled from the spec: the envelopes of section 6 the SDK's engine puts
    on the channel for a submission and for a local cancellation. *)
Inductive Outgoing :=
| RequestEnvelope (id : Z) (method : string) (progressToken : option ProgressToken)
| CancelledNotification (requestId : Z) (reason : option string).

(** Modelled from the spec: the envelopes of section 6 the SDK's engine
    receives from the peer. *)
Inductive Incoming :=
| ResponseEnvelope (id : Z) (result : string)
| ErrorEnvelope (id : Z) (code : Z) (message : string)
| NotificationEnvelope (method : string).

(** Modelled from the spec: the Session of section 3, whose code is the SDK's
    [Protocol] class and not part of the sources.  It owns the request-id
    counter (the [_requestMessageId] the tests read) and the correlation
    table; [channel] is what it has sent, oldest first, and [completions] is
    what the callers' pending calls have resolved to, oldest first. *)
Record Session := {
  requestMessageId : Z;
  pending : gmap Z PendingRequest;
  channel : list Outgoing;
  completions : list (Z * TerminalState)
}.

(** Modelled from the spec: a session as created on connect, its counter at
    its initial value. *)
Definition connect (init : Z) : Session :=
  {| requestMessageId := init; pending := ∅; channel := []; completions := [] |}.

(** Modelled from the spec: [submit(method, params, progressToken?)] of
    section 4.1.  It allocates the counter's value as the id (the tests read
    the counter, make a call and expect the request to carry that value),
    advances the counter, records the pending request and sends the request
    envelope. *)
Definition submit (m : string) (tok : option ProgressToken) (s : Session) : Z * Session :=
  let id := requestMessageId s in
  (id,
   {| requestMessageId := (id + 1)%Z;
      pending := <[id := {| method := m; progressToken := tok |}]> (pending s);
      channel := channel s ++ [RequestEnvelope id m tok];
      completions := completions s |}).

(** Modelled from the spec: the transition of a pending request to a terminal
    state on a terminal message; "applied to an id with no matching
    PendingRequest (already completed, cancelled, or unknown) is a no-op". *)
Definition terminate (id : Z) (t : TerminalState) (s : Session) : Session :=
  match pending s !! id with
  | None => s
  | Some _ =>
      {| requestMessageId := requestMessageId s;
         pending := delete id (pending s);
         channel := channel s;
         completions := completions s ++ [(id, t)] |}
  end.

(** Modelled from the spec: [resolve(id, result)] and
    [reject(id, errorCode, message)] of section 4.1, the SDK's handling of a
    response and of an error. *)
Definition resolve (id : Z) (result : string) : Session → Session :=
  terminate id (ResolvedWithResult result).

Definition reject (id : Z) (code : Z) (msg : string) : Session → Session :=
  terminate id (ResolvedWithError code msg).

(** Modelled from the spec: [cancelLocally(id, reason)] of section 4.1.  The
    pending call completes now, as cancelled, and "a cancellation notification
    on the channel carrying the request id and an optional human-readable
    reason" is sent, without waiting for the peer. *)
Definition cancelLocally (id : Z) (reason : option string) (s : Session) : Session :=
  match pending s !! id with
  | None => s
  | Some _ =>
      {| requestMessageId := requestMessageId s;
         pending := delete id (pending s);
         channel := channel s ++ [CancelledNotification id reason];
         completions := completions s ++ [(id, CancelledLocally reason)] |}
  end.

(** Modelled from the spec: [onMessage(envelope)] of section 4.1 for what
    reaches the correlation table; ids are the sole correlation key. *)
Definition onMessage (m : Incoming) (s : Session) : Session :=
  match m with
  | ResponseEnvelope id result => resolve id result s
  | ErrorEnvelope id code msg => reject id code msg s
  | NotificationEnvelope _ => s
  end.

(** What can happen to a session: a caller submits a request, a caller
    cancels one, the peer's next message arrives. *)
Inductive Event :=
| Submit (m : string) (tok : option ProgressToken)
| Cancel (id : Z) (reason : option string)
| Receive (m : Incoming).

Definition step (s : Session) (e : Event) : Session :=
  match e with
  | Submit m tok => snd (submit m tok s)
  | Cancel id reason => cancelLocally id reason s
  | Receive m => onMessage m s
  end.

Definition run (evs : list Event) (s : Session) : Session := fold_left step evs s.

(** The ids of the requests on a channel, in sending order. *)
Definition request_ids (ch : list Outgoing) : list Z :=
  omap (λ o, match o with
             | RequestEnvelope id _ _ => Some id
             | CancelledNotification _ _ => None
             end) ch.

(** The number of submissions among some events. *)
Fixpoint submissions (evs : list Event) : nat :=
  match evs with
  | [] => 0
  | Submit _ _ :: evs' => S (submissions evs')
  | _ :: evs' => submissions evs'
  end.

(** The completions a caller observes for request [id]. *)
Definition completions_of (id : Z) (s : Session) : list TerminalState :=
  omap (λ c : Z * TerminalState, if decide (c.1 = id) then Some c.2 else None) (completions s).

(** In a session run from its creation, the ids in the table and the ids
    with a completion lie between the initial counter value and the counter,
    and a pending request has no completion. *)
Definition well_formed (init : Z) (s : Session) : Prop :=
  (init ≤ requestMessageId s)%Z
  ∧ (∀ id, is_Some (pending s !! id) →
           (init ≤ id < requestMessageId s)%Z ∧ completions_of id s = [])
  ∧ (∀ id, (requestMessageId s ≤ id)%Z → completions_of id s = []).

End Protocol.



(** ** The server's operations in sequence *)

(** What happens to a running server: a session attaches ([GET /sse]), a
    session's transport closes, a request is posted under a session id
    ([POST /messages]), and the code around the server calls
    [mcpServer.server.sendResourceUpdated] or [sendLoggingMessage] (the
    installed overrides). *)
Inductive ServerEvent :=
| Connect (sid : string)
| Close (sid : string)
| Post (sid : string) (req : ClientRequest)
| UpdateResource (uri : string)
| LogMessage (params : LoggingMessageParams).

Definition server_step (s : ServerState) (e : ServerEvent) : ServerState :=
  match e with
  | Connect sid => getSse sid s
  | Close sid => onclose sid s
  | Post sid req => snd (postMessages sid req s)
  | UpdateResource uri => sendResourceUpdated uri s
  | LogMessage params => sendLoggingMessage params s
  end.

Definition server_run (evs : list ServerEvent) (s : ServerState) : ServerState :=
  fold_left server_step evs s.

(** The number of calls of the two send overrides among some events. *)
Fixpoint send_calls (evs : list ServerEvent) : nat :=
  match evs with
  | [] => 0
  | (UpdateResource _ | LogMessage _) :: evs' => S (send_calls evs')
  | _ :: evs' => send_calls evs'
  end.

(** ** Completion of the [language] argument of [code_review] (index.ts line 122) *)

(** [s.startsWith(v)] *)
Definition startsWith (s v : string) : bool := String.prefix v s.

(** [(v) => ['python', 'pytorch', 'pyside'].filter(s => s.startsWith(v))] *)
Definition complete_language (v : string) : list string :=
  filter (λ s, startsWith s v) ["python"; "pytorch"; "pyside"].

(** ** [LoggingServerTransport] (index.ts lines 17-43) *)

(** A wrapper around an inner transport.  [inner_onmessage] tells whether
    [start()] has installed the wrapper's callback as [inner.onmessage];
    [onmessage_set] tells whether the wrapper's own [onmessage] is set;
    [received] is the array given to the constructor; [delivered] lists the
    messages [this.onmessage] was called with. *)
Record TransportState := {
  inner_onmessage : bool;
  onmessage_set : bool;
  received : list JSON;
  delivered : list JSON
}.

(** [new LoggingServerTransport(inner, received)] *)
Definition new_transport (serverReceived : list JSON) : TransportState :=
  {| inner_onmessage := false; onmessage_set := false;
     received := serverReceived; delivered := [] |}.

(** [start()], an assignment to [onmessage] (a handler or [undefined]), and
    the inner transport handing a message to whatever [inner.onmessage] is. *)
Inductive TransportEvent :=
| Start
| SetOnmessage (handler : bool)
| InnerMessage (m : JSON).

Definition transport_step (t : TransportState) (e : TransportEvent) : TransportState :=
  match e with
  | Start =>
      {| inner_onmessage := true; onmessage_set := onmessage_set t;
         received := received t; delivered := delivered t |}
  | SetOnmessage h =>
      {| inner_onmessage := inner_onmessage t; onmessage_set := h;
         received := received t; delivered := delivered t |}
  | InnerMessage m =>
      if inner_onmessage t then
        {| inner_onmessage := true; onmessage_set := onmessage_set t;
           received := received t ++ [m];
           delivered := if onmessage_set t then delivered t ++ [m] else delivered t |}
      else t
  end.

Definition transport_run (evs : list TransportEvent) (t : TransportState) : TransportState :=
  fold_left transport_step evs t.

(** The messages the inner transport handed over once [start()] had run. *)
Fixpoint messages_since_start (started : bool) (evs : list TransportEvent) : list JSON :=
  match evs with
  | [] => []
  | Start :: evs' => messages_since_start true evs'
  | SetOnmessage _ :: evs' => messages_since_start started evs'
  | InnerMessage m :: evs' =>
      (if started then [m] else []) ++ messages_since_start started evs'
  end.

(** ** What a run of a long-running handler can look like *)

(** A run of a handler with [steps] iterations passes the progress
    notifications of iterations 1 to [n] to [sendNotification], for some [n]
    up to [steps], no checkpoint up to [n] having read the signal aborted.
    It ends in one of three ways: it returns [result], [n] being [steps] and
    every sending having resolved; it throws [Error('Cancelled')], checkpoint
    [n + 1] having read the signal aborted; or it throws what the sending of
    notification [n] rejected with. *)
Definition bounded_progress {A : Type} (steps : nat) (extra : RequestHandlerExtra)
    (run : Run A) (result : A) : Prop :=
  ∃ n : nat,
    n ≤ steps
    ∧ fst run = map (step_notification extra steps) (seq 1 n)
    ∧ (∀ j, 1 ≤ j ≤ n → signal_aborted extra j = false)
    ∧ (∀ j, 1 ≤ j < n → sendNotification extra (step_notification extra steps j) = None)
    ∧ ((n = steps
        ∧ (∀ j, 1 ≤ j ≤ n → sendNotification extra (step_notification extra steps j) = None)
        ∧ snd run = Return result)
       ∨ (n < steps
          ∧ (∀ j, 1 ≤ j ≤ n → sendNotification extra (step_notification extra steps j) = None)
          ∧ signal_aborted extra (S n) = true
          ∧ snd run = Throw (JsError "Cancelled"))
       ∨ (1 ≤ n
          ∧ ∃ e : Thrown,
              sendNotification extra (step_notification extra steps n) = Some e
              ∧ snd run = Throw e)).

(* ================================================================= *)
(** * Properties *)

Example sendLoggingMessage_info_at_info :
  sent (sendLoggingMessage {| level := "info"; logger := Some "test"; data := "a" |} startServer)
  = [LoggingMessageNotification {| level := "info"; logger := Some "test"; data := "a" |}].
Proof. reflexivity. Qed.


(** ** Logging *)

Lemma indexOf_severity_name (v : Severity) :
  indexOf levels (severity_name v) = Z.of_nat (severity_rank v).
Proof. destruct v; reflexivity. Qed.

Lemma includes_severity_name (v : Severity) : includes levels (severity_name v) = true.
Proof. destruct v; reflexivity. Qed.

Lemma includes_In (l : list string) (x : string) : includes l x = true ↔ x ∈ l.
Proof.
  induction l as [|y l IH]; simpl.
  - split; [discriminate | intros H; inversion H].
  - destruct (String.eqb_spec y x) as [->|Hne].
    + split; [intros _; left | reflexivity].
    + rewrite IH. split; [intros H; now right | intros H].
      inversion H; subst; [congruence | assumption].
Qed.

Lemma includes_levels_severity (x : string) :
  includes levels x = true ↔ ∃ v, x = severity_name v.
Proof.
  split.
  - rewrite includes_In. unfold levels. rewrite !elem_of_cons, elem_of_nil.
    intros [->|[->|[->|[->|[->|[->|[->|[->|[]]]]]]]]];
      [exists Debug | exists Info | exists Notice | exists Warning
      | exists Error | exists Critical | exists Alert | exists Emergency]; reflexivity.
  - intros [v ->]. apply includes_severity_name.
Qed.

Lemma snoc_ne {A : Type} (l : list A) (x : A) : l ++ [x] ≠ l.
Proof.
  intros H. apply (f_equal length) in H. rewrite length_app in H. simpl in H. lia.
Qed.

Lemma sendLoggingMessage_gate (s : ServerState) (thr sev : Severity)
    (params : LoggingMessageParams) :
  currentLogLevel s = severity_name thr →
  level params = severity_name sev →
  (severity_rank thr ≤ severity_rank sev →
     sendLoggingMessage params s = send (LoggingMessageNotification params) s)
  ∧ (severity_rank sev < severity_rank thr → sendLoggingMessage params s = s).
Proof.
  intros Hthr Hsev. unfold sendLoggingMessage, originalSendLoggingMessage.
  rewrite Hsev, Hthr, !indexOf_severity_name.
  destruct (Z.geb_spec (Z.of_nat (severity_rank sev)) (Z.of_nat (severity_rank thr)));
    split; intros ?; first [reflexivity | lia].
Qed.

Lemma sendLoggingMessage_gate_iff (s : ServerState) (thr sev : Severity)
    (params : LoggingMessageParams) :
  currentLogLevel s = severity_name thr →
  level params = severity_name sev →
  sent (sendLoggingMessage params s) = sent s ++ [LoggingMessageNotification params]
  ↔ severity_rank thr ≤ severity_rank sev.
Proof.
  intros Hthr Hsev. destruct (sendLoggingMessage_gate s thr sev params Hthr Hsev) as [Hyes Hno].
  destruct (Nat.le_gt_cases (severity_rank thr) (severity_rank sev)) as [Hle|Hgt].
  - rewrite (Hyes Hle). split; [intros _; assumption | reflexivity].
  - rewrite (Hno Hgt). split; [|lia]. intros H. symmetry in H. now apply snoc_ne in H.
Qed.

Lemma sendLoggingMessage_drop_iff (s : ServerState) (thr sev : Severity)
    (params : LoggingMessageParams) :
  currentLogLevel s = severity_name thr →
  level params = severity_name sev →
  sent (sendLoggingMessage params s) = sent s ↔ severity_rank sev < severity_rank thr.
Proof.
  intros Hthr Hsev. destruct (sendLoggingMessage_gate s thr sev params Hthr Hsev) as [Hyes Hno].
  destruct (Nat.le_gt_cases (severity_rank thr) (severity_rank sev)) as [Hle|Hgt].
  - rewrite (Hyes Hle). split; [|lia]. cbn. intros H. now apply snoc_ne in H.
  - rewrite (Hno Hgt). split; [intros _; assumption | reflexivity].
Qed.

Lemma SetLevelRequestSchema_parse_cases (lvl : string) :
  ((∃ v : Severity, lvl = severity_name v) ∧ SetLevelRequestSchema_parse lvl = Return lvl)
  ∨ ((∀ v : Severity, lvl ≠ severity_name v)
     ∧ SetLevelRequestSchema_parse lvl = Throw (McpError (-32602) "Invalid params" None)).
Proof.
  unfold SetLevelRequestSchema_parse.
  destruct (existsb _ _) eqn:E.
  - left. split; [|reflexivity]. apply existsb_exists in E. destruct E as (v & _ & Hv).
    apply String.eqb_eq in Hv. now exists v.
  - right. split; [|reflexivity]. intros v ->.
    assert (H : existsb (λ w, String.eqb (severity_name w) (severity_name v))
                  [Debug; Info; Notice; Warning; Error; Critical; Alert; Emergency] = true)
      by (destruct v; reflexivity).
    congruence.
Qed.

(** The registered handler changes the state as the arrow function does. *)
Lemma setLevelRequestHandler_state (lvl : string) (s : ServerState) :
  snd (setLevelRequestHandler lvl s) = snd (setLevelHandler lvl s).
Proof.
  unfold setLevelRequestHandler, setLevelHandler.
  destruct (SetLevelRequestSchema_parse_cases lvl) as [[_ ->]|[Hno ->]]; [reflexivity |].
  cbn [snd]. destruct (includes levels lvl) eqn:E; [|reflexivity].
  apply includes_levels_severity in E. destruct E as [v ->]. now destruct (Hno v).
Qed.

(** C1: a logging/setLevel request whose level is not one of the eight
    severities fails, in the registered handler, with the invalid-parameter
    error, and the state, so the threshold, is unchanged; a request with one
    of the eight makes that level the threshold, changes nothing else, and
    returns the empty result. *)
Theorem setLevel_request_validates_level :
  ∀ (lvl : string) (s : ServerState),
    ((∀ v : Severity, lvl ≠ severity_name v) →
       (∃ (msg : string) (d : option ErrorData),
          fst (setLevelRequestHandler lvl s) = Throw (McpError (-32602) msg d))
       ∧ snd (setLevelRequestHandler lvl s) = s)
    ∧ ((∃ v : Severity, lvl = severity_name v) →
         fst (setLevelRequestHandler lvl s) = Return empty_result
         ∧ snd (setLevelRequestHandler lvl s) = set_currentLogLevel lvl s
         ∧ currentLogLevel (snd (setLevelRequestHandler lvl s)) = lvl).
Proof.
  intros lvl s. unfold setLevelRequestHandler.
  destruct (SetLevelRequestSchema_parse_cases lvl) as [[Hv ->]|[Hno ->]].
  - split; [intros Hno; destruct Hv as [v ->]; now destruct (Hno v) |].
    intros _. unfold setLevelHandler. cbn [fst snd].
    apply includes_levels_severity in Hv. rewrite Hv. now repeat split.
  - split; [intros _; cbn [fst snd]; split; [now eexists _, _ | reflexivity] |].
    intros [v ->]. now destruct (Hno v).
Qed.

Example setLevel_request_verbose :
  setLevelRequestHandler "verbose" startServer
  = (Throw (McpError (-32602) "Invalid params" None), startServer).
Proof. reflexivity. Qed.

Example setLevel_request_error :
  currentLogLevel (snd (setLevelRequestHandler "error" startServer)) = "error".
Proof. reflexivity. Qed.

(** C3: with the threshold at severity [thr], [sendLoggingMessage] hands a
    record of severity [sev] on (appending exactly that record to what was
    sent) if and only if the rank of [sev] in the order debug < info < notice <
    warning < error < critical < alert < emergency is at least the rank of
    [thr], and otherwise leaves the state as it is.  Setting a new threshold
    [thr'] leaves what was already sent untouched and gates the emissions that
    follow by [thr']. *)
Theorem sendLoggingMessage_delivers_iff_rank :
  ∀ (s : ServerState) (thr sev : Severity) (params : LoggingMessageParams),
    currentLogLevel s = severity_name thr →
    level params = severity_name sev →
    (sent (sendLoggingMessage params s) = sent s ++ [LoggingMessageNotification params]
       ↔ severity_rank thr ≤ severity_rank sev)
    ∧ (sendLoggingMessage params s = s ↔ severity_rank sev < severity_rank thr)
    ∧ ∀ thr' : Severity,
        let s' := snd (setLevelHandler (severity_name thr') s) in
        sent s' = sent s
        ∧ (sent (sendLoggingMessage params s') = sent s ++ [LoggingMessageNotification params]
             ↔ severity_rank thr' ≤ severity_rank sev)
        ∧ (sent (sendLoggingMessage params s') = sent s
             ↔ severity_rank sev < severity_rank thr').
Proof.
  intros s thr sev params Hthr Hsev.
  split; [now apply sendLoggingMessage_gate_iff |]. split.
  - destruct (sendLoggingMessage_gate s thr sev params Hthr Hsev) as [Hyes Hno].
    split; [|apply Hno].
    intros H. destruct (Nat.le_gt_cases (severity_rank thr) (severity_rank sev)) as [Hle|Hgt];
      [|assumption].
    rewrite (Hyes Hle) in H. apply (f_equal sent) in H. cbn in H. now apply snoc_ne in H.
  - intros thr'. cbv zeta. unfold setLevelHandler; cbn [fst snd].
    rewrite includes_severity_name.
    split; [reflexivity |].
    change (sent s) with (sent (set_currentLogLevel (severity_name thr') s)).
    split; [now apply sendLoggingMessage_gate_iff | now apply sendLoggingMessage_drop_iff].
Qed.

(** C3 at the state right after [startServer] (threshold [info]) and a record
    of severity [error]. *)
Lemma sendLoggingMessage_delivers_iff_rank_witness :
  currentLogLevel startServer = severity_name Info
  ∧ sent (sendLoggingMessage {| level := "error"; logger := Some "test"; data := "b" |} startServer)
    = [LoggingMessageNotification {| level := "error"; logger := Some "test"; data := "b" |}].
Proof.
  split; [reflexivity |].
  apply (proj1 (sendLoggingMessage_delivers_iff_rank startServer Info Error
                  {| level := "error"; logger := Some "test"; data := "b" |}
                  eq_refl eq_refl)).
  simpl. lia.
Defined.

(** ** Subscriptions *)

Lemma subscribedResources_dispatch (r : ClientRequest) (s : ServerState) (uri : string) :
  uri ∈ subscribedResources (snd (dispatch r s)) ↔
  match r with
  | SubscribeRequest u => u = uri ∨ uri ∈ subscribedResources s
  | UnsubscribeRequest u => uri ∈ subscribedResources s ∧ u ≠ uri
  | SetLevelRequest _ => uri ∈ subscribedResources s
  end.
Proof.
  destruct r as [u|u|lvl]; cbn [dispatch];
    [| |rewrite setLevelRequestHandler_state];
    unfold subscribeHandler, unsubscribeHandler, setLevelHandler; cbn [snd].
  - unfold set_subscribedResources; cbn [subscribedResources].
    rewrite elem_of_union, elem_of_singleton. split; intros [H|H]; auto.
  - unfold set_subscribedResources; cbn [subscribedResources].
    rewrite elem_of_difference, elem_of_singleton. split; intros [H1 H2]; split; auto.
  - destruct (includes levels lvl); reflexivity.
Qed.

(** Membership after a run of requests: a subscribe with no unsubscribe after
    it, or membership before the run with no unsubscribe in it. *)
Lemma subscribedResources_serve (reqs : list ClientRequest) (uri : string) :
  ∀ s : ServerState,
    uri ∈ subscribedResources (serve reqs s) ↔
    (∃ pre post, reqs = pre ++ SubscribeRequest uri :: post ∧ UnsubscribeRequest uri ∉ post)
    ∨ (uri ∈ subscribedResources s ∧ UnsubscribeRequest uri ∉ reqs).
Proof.
  induction reqs as [|r reqs IH]; intros s.
  - simpl. split.
    + intros H. right. split; [assumption | apply not_elem_of_nil].
    + intros [(pre & post & H & _)|[H _]]; [now destruct pre | assumption].
  - change (serve (r :: reqs) s) with (serve reqs (snd (dispatch r s))).
    rewrite IH, subscribedResources_dispatch. rewrite not_elem_of_cons. split.
    + intros [(pre & post & -> & Hpost)|[Hin Hno]].
      * left. exists (r :: pre), post. split; [reflexivity | assumption].
      * destruct r as [u|u|lvl].
        -- destruct Hin as [->|Hin].
           ++ left. exists [], reqs. split; [reflexivity | assumption].
           ++ right. repeat split; [assumption | discriminate | assumption].
        -- destruct Hin as [Hin Hne]. right. repeat split; [assumption | congruence | assumption].
        -- right. repeat split; [assumption | discriminate | assumption].
    + intros [(pre & post & Heq & Hpost)|[Hin [Hne Hno]]].
      * destruct pre as [|r' pre]; simpl in Heq; injection Heq as -> ->.
        -- right. split; [now left | assumption].
        -- left. exists pre, post. split; [reflexivity | assumption].
      * right. split; [|assumption].
        destruct r as [u|u|lvl]; [now right | split; [assumption | congruence] | assumption].
Qed.

Lemma sendResourceUpdated_after_subscribe (uri : string) (s : ServerState) :
  sent (sendResourceUpdated uri (snd (subscribeHandler uri s)))
  = sent s ++ [ResourceUpdatedNotification uri].
Proof.
  unfold sendResourceUpdated, originalSendResourceUpdated.
  rewrite decide_True; [reflexivity |]. cbn.
  apply elem_of_union. left. now apply elem_of_singleton.
Qed.

(** C2: after any run of requests from the start of the server, a uri is in
    the subscription set exactly when the run holds a resources/subscribe for
    it with no resources/unsubscribe for it afterwards.  In every state,
    [sendResourceUpdated] hands on one resources/updated notification for the
    uri when the uri is in the set, and is a no-op when it is not; right after
    subscribe(R), one update on R adds exactly one notification, with uri R. *)
Theorem sendResourceUpdated_only_when_subscribed :
  ∀ (reqs : list ClientRequest) (s : ServerState) (uri : string),
    (uri ∈ subscribedResources (serve reqs startServer)
       ↔ ∃ pre post, reqs = pre ++ SubscribeRequest uri :: post
                      ∧ UnsubscribeRequest uri ∉ post)
    ∧ (sent (sendResourceUpdated uri s) ≠ sent s → uri ∈ subscribedResources s)
    ∧ (uri ∈ subscribedResources s →
         sent (sendResourceUpdated uri s) = sent s ++ [ResourceUpdatedNotification uri])
    ∧ (uri ∉ subscribedResources s → sendResourceUpdated uri s = s)
    ∧ sent (sendResourceUpdated uri (snd (subscribeHandler uri s)))
      = sent s ++ [ResourceUpdatedNotification uri]
    ∧ sendResourceUpdated uri (snd (unsubscribeHandler uri (snd (subscribeHandler uri s))))
      = snd (unsubscribeHandler uri (snd (subscribeHandler uri s))).
Proof.
  intros reqs s uri. split.
  { rewrite subscribedResources_serve. split; [|intros H; now left].
    intros [H|[H _]]; [assumption |]. simpl in H. now apply not_elem_of_empty in H. }
  split; [|split; [|split; [|split]]].
  - unfold sendResourceUpdated.
    destruct (decide (uri ∈ subscribedResources s)); [intros _; assumption | intros H; now destruct H].
  - intros H. unfold sendResourceUpdated. now rewrite decide_True by assumption.
  - intros H. unfold sendResourceUpdated. now rewrite decide_False by assumption.
  - apply sendResourceUpdated_after_subscribe.
  - unfold sendResourceUpdated. rewrite decide_False; [reflexivity |]. cbn.
    rewrite elem_of_difference, elem_of_singleton. intros [_ H]. now apply H.
Qed.

Example resource_updated_scenario :
  sent (sendResourceUpdated "file:///S"
          (sendResourceUpdated "file:///R"
             (serve [SubscribeRequest "file:///R"] startServer)))
  = [ResourceUpdatedNotification "file:///R"].
Proof. vm_compute. reflexivity. Qed.

(** ** Long-running handlers *)

(** Every run of the loop: how far it gets and how it ends. *)
Lemma progress_loop_bounded (extra : RequestHandlerExtra) (steps : nat) :
  ∀ (n i : nat) (out : list Notification),
    ∃ m : nat,
      m ≤ n
      ∧ fst (progress_loop extra steps n i out)
        = out ++ map (step_notification extra steps) (seq i m)
      ∧ (∀ j, i ≤ j < i + m → signal_aborted extra j = false)
      ∧ (∀ j, i ≤ j → S j < i + m →
              sendNotification extra (step_notification extra steps j) = None)
      ∧ ((m = n
          ∧ (∀ j, i ≤ j < i + m →
                  sendNotification extra (step_notification extra steps j) = None)
          ∧ snd (progress_loop extra steps n i out) = None)
         ∨ (m < n
            ∧ (∀ j, i ≤ j < i + m →
                    sendNotification extra (step_notification extra steps j) = None)
            ∧ signal_aborted extra (i + m) = true
            ∧ snd (progress_loop extra steps n i out) = Some (JsError "Cancelled"))
         ∨ (∃ (e : Thrown) (j0 : nat),
              i + m = S j0 ∧ i ≤ j0
              ∧ sendNotification extra (step_notification extra steps j0) = Some e
              ∧ snd (progress_loop extra steps n i out) = Some e)).
Proof.
  induction n as [|n IH]; intros i out; cbn [progress_loop].
  - exists 0. split; [lia |]. split; [cbn; now rewrite app_nil_r |].
    split; [intros j Hj; lia |]. split; [intros j Hj Hj'; lia |].
    left. split; [reflexivity |]. split; [intros j Hj; lia | reflexivity].
  - destruct (signal_aborted extra i) eqn:Hi.
    + exists 0. split; [lia |]. split; [cbn; now rewrite app_nil_r |].
      split; [intros j Hj; lia |]. split; [intros j Hj Hj'; lia |].
      right. left. rewrite Nat.add_0_r. split; [lia |].
      split; [intros j Hj; lia |]. now split.
    + destruct (sendNotification extra (step_notification extra steps i)) as [e|] eqn:Hs.
      * exists 1. split; [lia |]. split; [reflexivity |].
        split; [intros j Hj; now replace j with i by lia |].
        split; [intros j Hj Hj'; lia |].
        right. right. exists e, i. split; [lia |]. split; [lia |]. now split.
      * destruct (IH (S i) (out ++ [step_notification extra steps i]))
          as (m & Hm & Hout & Hno & Hres & Hend).
        exists (S m). split; [lia |].
        split; [rewrite Hout, <- app_assoc; reflexivity |].
        assert (Hall : ∀ P : nat → Prop,
                   P i → (∀ j, S i ≤ j < S i + m → P j) → ∀ j, i ≤ j < i + S m → P j).
        { intros P Hi' Hrest j Hj. destruct (decide (j = i)) as [->|Hne]; [assumption |].
          apply Hrest. lia. }
        split; [now apply (Hall (λ j, signal_aborted extra j = false)) |].
        split.
        { intros j Hj Hj'. destruct (decide (j = i)) as [->|Hne]; [assumption |].
          apply Hres; lia. }
        destruct Hend as [(-> & Hsend & Hend)|[(Hlt & Hsend & Hab & Hend)|
                          (e & j0 & Hj0 & Hle & Hsend & Hend)]].
        -- left. split; [reflexivity |]. split; [|assumption].
           now apply (Hall (λ j, sendNotification extra (step_notification extra steps j) = None)).
        -- right. left. split; [lia |]. split.
           ++ now apply (Hall (λ j, sendNotification extra (step_notification extra steps j)
                                    = None)).
           ++ replace (i + S m) with (S i + m) by lia. now split.
        -- right. right. exists e, j0. split; [lia |]. split; [lia |]. now split.
Qed.

Lemma run_steps_bounded {A : Type} (extra : RequestHandlerExtra) (steps : nat) (result : A) :
  bounded_progress steps extra (run_steps extra steps result) result.
Proof.
  unfold bounded_progress, run_steps.
  destruct (progress_loop_bounded extra steps steps 1 [])
    as (m & Hm & Hout & Hno & Hres & Hend).
  exists m. destruct (progress_loop extra steps steps 1 []) as [out r]. cbn [fst snd] in *.
  split; [assumption |]. split; [destruct r; assumption |].
  split; [intros j Hj; apply Hno; lia |].
  split; [intros j Hj; apply Hres; lia |].
  destruct Hend as [(-> & Hsend & ->)|[(Hlt & Hsend & Hab & ->)|
                    (e & j0 & Hj0 & Hle & Hsend & ->)]]; cbn [snd].
  - left. split; [reflexivity |]. split; [intros j Hj; apply Hsend; lia | reflexivity].
  - right. left. split; [assumption |]. split; [intros j Hj; apply Hsend; lia |].
    now split.
  - right. right. assert (j0 = m) as -> by lia. split; [lia |]. now exists e.
Qed.

Lemma progress_loop_ext (extra extra' : RequestHandlerExtra) (steps : nat) :
  token_of extra = token_of extra' →
  ∀ (n i : nat) (out : list Notification),
    (∀ j, i ≤ j < i + n → signal_aborted extra j = signal_aborted extra' j) →
    (∀ j, i ≤ j < i + n →
          sendNotification extra (step_notification extra steps j)
          = sendNotification extra' (step_notification extra' steps j)) →
    progress_loop extra steps n i out = progress_loop extra' steps n i out.
Proof.
  intros Htoken.
  assert (Hnote : ∀ j, step_notification extra steps j = step_notification extra' steps j).
  { intros j. unfold step_notification. now rewrite Htoken. }
  induction n as [|n IH]; intros i out Hsig Hsend; [reflexivity |]. cbn [progress_loop].
  rewrite <- Hsig by lia. destruct (signal_aborted extra i); [reflexivity |].
  rewrite <- Hsend by lia. rewrite <- Hnote.
  destruct (sendNotification extra (step_notification extra steps i)); [reflexivity |].
  apply IH; intros j Hj; [apply Hsig | apply Hsend]; lia.
Qed.

Lemma run_steps_cooperative {A : Type} (steps : nat) (result : A) :
  cooperative steps (λ extra, run_steps extra steps result) result.
Proof.
  unfold cooperative. split; [|split; [|split]].
  - intros extra Hno Hsend.
    destruct (run_steps_bounded extra steps result) as (n & Hn & Hout & Hnab & Hres & Hend).
    destruct (run_steps extra steps result) as [out r]. cbn [fst snd] in *.
    destruct Hend as [(-> & _ & ->)|[(Hlt & _ & Hab & _)|(Hpos & e & He & _)]].
    + now rewrite Hout.
    + rewrite Hno in Hab by lia. discriminate.
    + rewrite Hsend in He by lia. discriminate.
  - intros extra k Hk Hab Hno Hsend.
    destruct (run_steps_bounded extra steps result) as (n & Hn & Hout & Hnab & Hres & Hend).
    destruct (run_steps extra steps result) as [out r]. cbn [fst snd] in *.
    destruct Hend as [(-> & _ & _)|[(Hlt & _ & Hab' & ->)|(Hpos & e & He & _)]].
    + rewrite Hnab in Hab by lia. discriminate.
    + destruct (Nat.lt_trichotomy (S n) k) as [H|[H|H]].
      * rewrite Hno in Hab' by lia. discriminate.
      * subst k. rewrite Hout. now replace (S n - 1) with n by lia.
      * rewrite Hnab in Hab by lia. discriminate.
    + destruct (Nat.lt_ge_cases n k) as [H|H].
      * rewrite Hsend in He by lia. discriminate.
      * rewrite Hnab in Hab by lia. discriminate.
  - intros extra k e Hk He Hno Hsend.
    destruct (run_steps_bounded extra steps result) as (n & Hn & Hout & Hnab & Hres & Hend).
    destruct (run_steps extra steps result) as [out r]. cbn [fst snd] in *.
    destruct Hend as [(-> & Hall & _)|[(Hlt & Hall & Hab & _)|(Hpos & e' & He' & ->)]].
    + rewrite Hall in He by lia. discriminate.
    + destruct (Nat.lt_ge_cases n k) as [H|H].
      * rewrite Hno in Hab by lia. discriminate.
      * rewrite Hall in He by lia. discriminate.
    + destruct (Nat.lt_trichotomy n k) as [H|[H|H]].
      * rewrite Hsend in He' by lia. discriminate.
      * subst n. rewrite Hout. congruence.
      * rewrite Hres in He by lia. discriminate.
  - intros extra extra' Hmeta Hsig Hsend. unfold run_steps.
    rewrite (progress_loop_ext extra extra' steps); [reflexivity | | |].
    + unfold token_of. now rewrite Hmeta.
    + intros j Hj. apply Hsig. lia.
    + intros j Hj. apply Hsend. lia.
Qed.

(** A request without a progress token is served as one with the token 0. *)
Lemma run_steps_without_token {A : Type} (extra : RequestHandlerExtra) (steps : nat)
    (result : A) :
  _meta extra = None ∨ _meta extra = Some {| meta_progressToken := None |} →
  run_steps extra steps result
  = run_steps (with_progressToken (TokenNum 0) extra) steps result.
Proof.
  intros Hnone. unfold run_steps.
  assert (Htoken : token_of extra = token_of (with_progressToken (TokenNum 0) extra)).
  { unfold token_of, with_progressToken. cbn. now destruct Hnone as [-> | ->]. }
  rewrite (progress_loop_ext extra (with_progressToken (TokenNum 0) extra) steps Htoken);
    [reflexivity | reflexivity |].
  intros j Hj. unfold step_notification. now rewrite <- Htoken.
Qed.

(** C5, as the specification states it, fails for [slow_echo] when the
    sending of its first progress notification rejects: no reading finds the
    signal aborted, yet the handler does not run to completion and returns no
    result; it ends with the error of the rejected sending. *)
Lemma slow_echo_ends_when_a_send_rejects :
  (∀ j : nat, never_aborted j = false)
  ∧ slow_echo "hello" 500
      {| _meta := None; signal_aborted := never_aborted;
         sendNotification := always_rejects (JsError "Not connected") |}
    = ([ProgressNotification {| progressToken := TokenNum 0; progress := 1; total := 5;
                                message := "Step 1" |}],
       Throw (JsError "Not connected")).
Proof. split; [reflexivity |]. vm_compute. reflexivity. Qed.

(** C5 (amended): each of [slow_echo], [slow_prompt] and [slow-resource] reads
    the abort signal at the top of each loop iteration and nowhere else.  If
    the [k]-th reading is the first to find it aborted, the handler throws
    [Error('Cancelled')] having sent only the notifications of iterations
    [1 .. k-1], and returns no result.  If no reading finds it aborted and
    every [sendNotification] call resolves, the handler sends all its progress
    notifications (5, 5 and 3) and returns its result.  If a
    [sendNotification] call rejects, the handler ends with that error and
    makes no further call. *)
Theorem slow_handlers_cancel_cooperatively :
  ∀ (msg : string) (delay : Z) (uri : URL),
    cooperative 5 (slow_echo msg delay)
      {| content := [{| content_type := "text"; text := msg |}] |}
    ∧ cooperative 5 (slow_prompt msg)
        {| description := "Slow prompt";
           messages := [{| role := "user";
                           message_content := {| content_type := "text"; text := msg |} |}] |}
    ∧ cooperative 3 (slow_resource uri)
        {| contents := [{| contents_uri := "file:///slow/data.txt";
                           mimeType := "text/plain";
                           contents_text := "slow resource" |}] |}.
Proof.
  intros msg delay uri. split; [|split]; apply run_steps_cooperative.
Qed.

Example slow_echo_cancelled_at_second_check :
  slow_echo "cancel" 1000 {| _meta := Some {| meta_progressToken := Some (TokenNum 7) |};
                             signal_aborted := aborted_from 2;
                             sendNotification := always_resolves |}
  = ([ProgressNotification {| progressToken := TokenNum 7; progress := 1; total := 5;
                              message := "Step 1" |}],
     Throw (JsError "Cancelled")).
Proof. vm_compute. reflexivity. Qed.

(** ** Progress tokens *)

Lemma progress_loop_tokens (extra : RequestHandlerExtra) (steps : nat) :
  ∀ (n i : nat) (out : list Notification) (x : Notification),
    x ∈ fst (progress_loop extra steps n i out) →
    x ∈ out ∨ ∃ j, x = step_notification extra steps j.
Proof.
  induction n as [|n IH]; intros i out x Hx; cbn [progress_loop] in Hx; [now left |].
  destruct (signal_aborted extra i); [now left |].
  assert (Hnew : x ∈ out ++ [step_notification extra steps i] →
                 x ∈ out ∨ ∃ j, x = step_notification extra steps j).
  { intros H. apply elem_of_app in H. destruct H as [H|H]; [now left |].
    apply list_elem_of_singleton in H. right. now exists i. }
  destruct (sendNotification extra (step_notification extra steps i)); [now apply Hnew |].
  apply IH in Hx. destruct Hx as [Hx|Hx]; [now apply Hnew | now right].
Qed.

Lemma run_steps_tokens {A : Type} (extra : RequestHandlerExtra) (steps : nat) (result : A)
    (x : Notification) :
  x ∈ fst (run_steps extra steps result) → ∃ j, x = step_notification extra steps j.
Proof.
  unfold run_steps. intros Hx.
  assert (Hx' : x ∈ fst (progress_loop extra steps steps 1 [])).
  { destruct (progress_loop extra steps steps 1 []) as [out [e|]]; exact Hx. }
  apply progress_loop_tokens in Hx'. destruct Hx' as [Hx'|Hx']; [|assumption].
  now apply elem_of_nil in Hx'.
Qed.

(** C6, as the specification states it, fails for [slow_echo] on a request
    that supplies no progress token: the handler still sends its five progress
    notifications, the first of them with token 0. *)
Lemma slow_echo_progress_without_token :
  _meta {| _meta := None; signal_aborted := never_aborted;
           sendNotification := always_resolves |} = None
  ∧ length (fst (slow_echo "hello" 500
                   {| _meta := None; signal_aborted := never_aborted;
                      sendNotification := always_resolves |})) = 5
  ∧ fst (slow_echo "hello" 500
           {| _meta := None; signal_aborted := never_aborted;
              sendNotification := always_resolves |}) !! 0
    = Some (ProgressNotification {| progressToken := TokenNum 0; progress := 1; total := 5;
                                    message := "Step 1" |}).
Proof. vm_compute. repeat split. Qed.

(** C6 (amended): every notification one of the long-running handlers
    ([slow_echo], [slow_prompt], [slow-resource], [file-template]) sends is a
    progress notification that carries exactly the progress token of the
    request's metadata when the request supplied one, and the token 0 when it
    supplied none.  A request without a token is served exactly as the same
    request with the token 0: the handler sends the same notifications and
    ends the same way.  With or without a token, a run in which no reading
    finds the signal aborted and every sending resolves sends all the
    notifications of the handler (5 for [slow_echo] and [slow_prompt], 3 for
    [slow-resource]). *)
Theorem progress_notifications_carry_request_token :
  ∀ (msg : string) (delay : Z) (uri : URL) (vars : Variables) (extra : RequestHandlerExtra),
    (∀ x : Notification,
       x ∈ fst (slow_echo msg delay extra) ++ fst (slow_prompt msg extra)
           ++ fst (slow_resource uri extra) ++ fst (file_template uri vars extra) →
       ∃ p : ProgressParams,
         x = ProgressNotification p
         ∧ (∀ t, _meta extra = Some {| meta_progressToken := Some t |} → progressToken p = t)
         ∧ (_meta extra = None ∨ _meta extra = Some {| meta_progressToken := None |} →
              progressToken p = TokenNum 0))
    ∧ (_meta extra = None ∨ _meta extra = Some {| meta_progressToken := None |} →
       slow_echo msg delay extra = slow_echo msg delay (with_progressToken (TokenNum 0) extra)
       ∧ slow_prompt msg extra = slow_prompt msg (with_progressToken (TokenNum 0) extra)
       ∧ slow_resource uri extra = slow_resource uri (with_progressToken (TokenNum 0) extra)
       ∧ file_template uri vars extra
         = file_template uri vars (with_progressToken (TokenNum 0) extra))
    ∧ ((∀ j : nat, signal_aborted extra j = false) →
       (∀ n : Notification, sendNotification extra n = None) →
       fst (slow_echo msg delay extra) = map (step_notification extra 5) (seq 1 5)
       ∧ fst (slow_prompt msg extra) = map (step_notification extra 5) (seq 1 5)
       ∧ fst (slow_resource uri extra) = map (step_notification extra 3) (seq 1 3)).
Proof.
  intros msg delay uri vars extra. split; [|split].
  - intros x Hx.
    assert (Hstep : ∃ steps j, x = step_notification extra steps j).
    { rewrite !elem_of_app in Hx.
      unfold slow_echo, slow_prompt, slow_resource, file_template in Hx.
      destruct Hx as [Hx|[Hx|[Hx|Hx]]].
      - exists 5. eapply run_steps_tokens, Hx.
      - exists 5. eapply run_steps_tokens, Hx.
      - exists 3. eapply run_steps_tokens, Hx.
      - destruct (String.eqb (path vars) "project/src/main.rs"); [now apply elem_of_nil in Hx |].
        destruct (String.eqb (path vars) "slow/data.txt"); [|now apply elem_of_nil in Hx].
        exists 3. eapply run_steps_tokens, Hx. }
    destruct Hstep as (steps & j & ->). unfold step_notification.
    eexists. split; [reflexivity |]. cbn [progressToken]. unfold token_of. split.
    + intros t ->. reflexivity.
    + intros [->| ->]; reflexivity.
  - intros Hnone. unfold slow_echo, slow_prompt, slow_resource, file_template.
    split; [now apply run_steps_without_token |].
    split; [now apply run_steps_without_token |].
    split; [now apply run_steps_without_token |].
    destruct (String.eqb (path vars) "project/src/main.rs"); [reflexivity |].
    destruct (String.eqb (path vars) "slow/data.txt"); [|reflexivity].
    now apply run_steps_without_token.
  - intros Hsig Hsend. unfold slow_echo, slow_prompt, slow_resource.
    split; [|split].
    + now rewrite (proj1 (run_steps_cooperative 5 _) extra) by (intros; auto).
    + now rewrite (proj1 (run_steps_cooperative 5 _) extra) by (intros; auto).
    + now rewrite (proj1 (run_steps_cooperative 3 _) extra) by (intros; auto).
Qed.

Example slow_prompt_with_token_abc123 :
  fst (slow_prompt "hello"
         {| _meta := Some {| meta_progressToken := Some (TokenStr "abc123") |};
            signal_aborted := aborted_from 3;
            sendNotification := always_resolves |})
  = [ProgressNotification {| progressToken := TokenStr "abc123"; progress := 1; total := 5;
                             message := "Step 1" |};
     ProgressNotification {| progressToken := TokenStr "abc123"; progress := 2; total := 5;
                             message := "Step 2" |}].
Proof. vm_compute. reflexivity. Qed.

(** ** Paginated listing *)


(** ** The resources/read override *)






Example read_of_unknown_file_uri :
  readOverride (sdkReadHandler new_URL_of_normalised) {| read_uri := "file:///nope" |}
    {| _meta := None; signal_aborted := never_aborted; sendNotification := always_resolves |}
  = ([], Throw (McpError (-32002) "Resource not found" (Some {| data_uri := "file:///nope" |}))).
Proof. vm_compute. reflexivity. Qed.

Example read_of_unknown_template_path :
  readOverride (sdkReadHandler new_URL_of_normalised) {| read_uri := "http://example.com/missing" |}
    {| _meta := None; signal_aborted := never_aborted; sendNotification := always_resolves |}
  = ([], Throw (McpError (-32002) "Resource not found"
                  (Some {| data_uri := "http://example.com/missing" |}))).
Proof. vm_compute. reflexivity. Qed.

(** ** Sessions *)

Lemma postMessages_connected (sid : string) (req : ClientRequest) (s : ServerState) :
  is_Some (transports s !! sid) →
  postMessages sid req s = (Handled (fst (dispatch req s)), snd (dispatch req s)).
Proof.
  intros [t Ht]. unfold postMessages. rewrite Ht. now destruct (dispatch req s).
Qed.

(** C9: the log threshold and the subscription set belong to the server, not
    to a session.  For two sessions [a] and [b] attached to it, a request has
    the same effect whichever of them posts it; after a logging/setLevel
    posted through [a], every log record is gated by that level, and after a
    resources/subscribe posted through [a] an update on that uri is emitted.
    So what is emitted is not independent of what another session [b] posts:
    its subscribe turns an update that would be dropped into one that is
    emitted, and its setLevel to a higher level drops a record that would be
    emitted.  A post under an id no session is attached under changes
    nothing: it is answered "Session not found", or, for a name the
    [transports] object inherits from [Object.prototype], it ends in the
    [TypeError] of the missing [handlePostMessage]. *)
Theorem sessions_share_log_threshold_and_subscriptions :
  ∀ (s : ServerState) (a b : string),
    is_Some (transports s !! a) →
    is_Some (transports s !! b) →
    (∀ req : ClientRequest, postMessages a req s = postMessages b req s)
    ∧ (∀ (thr sev : Severity) (params : LoggingMessageParams),
         level params = severity_name sev →
         let s' := snd (postMessages a (SetLevelRequest (severity_name thr)) s) in
         sent (sendLoggingMessage params s') = sent s' ++ [LoggingMessageNotification params]
         ↔ severity_rank thr ≤ severity_rank sev)
    ∧ (∀ uri : string,
         let s' := snd (postMessages a (SubscribeRequest uri) s) in
         sent (sendResourceUpdated uri s') = sent s' ++ [ResourceUpdatedNotification uri])
    ∧ (∀ uri : string,
         uri ∉ subscribedResources s →
         sent (sendResourceUpdated uri s) = sent s
         ∧ sent (sendResourceUpdated uri (snd (postMessages b (SubscribeRequest uri) s)))
           = sent s ++ [ResourceUpdatedNotification uri])
    ∧ (∀ (thr thr' sev : Severity) (params : LoggingMessageParams),
         currentLogLevel s = severity_name thr →
         level params = severity_name sev →
         severity_rank thr ≤ severity_rank sev < severity_rank thr' →
         sent (sendLoggingMessage params s) = sent s ++ [LoggingMessageNotification params]
         ∧ sent (sendLoggingMessage params
                   (snd (postMessages b (SetLevelRequest (severity_name thr')) s)))
           = sent s)
    ∧ (∀ (c : string) (req : ClientRequest),
         transports s !! c = None →
         snd (postMessages c req s) = s
         ∧ (includes Object_prototype_names c = false →
            fst (postMessages c req s) = SessionNotFound)
         ∧ (includes Object_prototype_names c = true →
            fst (postMessages c req s) = NotAFunction)).
Proof.
  intros s a b Ha Hb. split; [|split; [|split; [|split; [|split]]]].
  - intros req. now rewrite !postMessages_connected by assumption.
  - intros thr sev params Hsev. cbv zeta. rewrite postMessages_connected by assumption.
    cbn [dispatch]. rewrite setLevelRequestHandler_state.
    unfold setLevelHandler; cbn [fst snd]. rewrite includes_severity_name.
    apply (sendLoggingMessage_gate_iff (set_currentLogLevel (severity_name thr) s) thr sev params);
      [reflexivity | assumption].
  - intros uri. cbv zeta. rewrite postMessages_connected by assumption.
    cbn [dispatch snd]. rewrite sendResourceUpdated_after_subscribe. reflexivity.
  - intros uri Hnot. split.
    + unfold sendResourceUpdated. now rewrite decide_False by assumption.
    + rewrite postMessages_connected by assumption. cbn [dispatch snd].
      apply sendResourceUpdated_after_subscribe.
  - intros thr thr' sev params Hthr Hsev [Hle Hlt]. split.
    + apply (sendLoggingMessage_gate_iff s thr sev params Hthr Hsev). assumption.
    + rewrite postMessages_connected by assumption.
      cbn [dispatch]. rewrite setLevelRequestHandler_state.
      unfold setLevelHandler; cbn [fst snd]. rewrite includes_severity_name.
      change (sent s) with (sent (set_currentLogLevel (severity_name thr') s)).
      apply (sendLoggingMessage_drop_iff (set_currentLogLevel (severity_name thr') s)
               thr' sev params); [reflexivity | assumption | assumption].
  - intros c req Hc. unfold postMessages. rewrite Hc.
    destruct (includes Object_prototype_names c); repeat split; intros H;
      first [reflexivity | discriminate H].
Qed.

(** C9 at the server with the sessions ["a"] and ["b"]: the subscribe that
    ["b"] posts decides whether an update on [file:///R] is emitted. *)
Lemma sessions_share_log_threshold_and_subscriptions_witness :
  sent (sendResourceUpdated "file:///R" two_sessions) = sent two_sessions
  ∧ sent (sendResourceUpdated "file:///R"
            (snd (postMessages "b" (SubscribeRequest "file:///R") two_sessions)))
    = sent two_sessions ++ [ResourceUpdatedNotification "file:///R"].
Proof.
  assert (Ha : is_Some (transports two_sessions !! "a")).
  { unfold two_sessions, getSse, set_transports. cbn [transports].
    rewrite lookup_insert_ne by discriminate. rewrite lookup_insert_eq. now eexists. }
  assert (Hb : is_Some (transports two_sessions !! "b")).
  { unfold two_sessions, getSse, set_transports. cbn [transports].
    rewrite lookup_insert_eq. now eexists. }
  apply (proj1 (proj2 (proj2 (proj2
           (sessions_share_log_threshold_and_subscriptions two_sessions "a" "b" Ha Hb))))
           "file:///R").
  cbn. apply not_elem_of_empty.
Defined.

(** ** The correlation table *)

Module ProtocolFacts.
Import Protocol.

Lemma run_snoc (evs : list Event) (e : Event) (s : Session) :
  run (evs ++ [e]) s = step (run evs s) e.
Proof. unfold run. now rewrite fold_left_app. Qed.

Lemma run_cons (e : Event) (evs : list Event) (s : Session) :
  run (e :: evs) s = run evs (step s e).
Proof. reflexivity. Qed.

Lemma submissions_snoc (evs : list Event) (e : Event) :
  submissions (evs ++ [e])
  = submissions evs + match e with Submit _ _ => 1 | _ => 0 end.
Proof.
  induction evs as [|e' evs IH]; simpl.
  - destruct e; reflexivity.
  - rewrite IH. destruct e'; reflexivity.
Qed.

Lemma completions_of_snoc (id id' : Z) (t : TerminalState) (s s' : Session) :
  completions s' = completions s ++ [(id', t)] →
  completions_of id s' = completions_of id s ++ (if decide (id' = id) then [t] else []).
Proof.
  intros H. unfold completions_of. rewrite H, omap_app. cbn.
  now destruct (decide (id' = id)).
Qed.

(** Completing a pending request: it leaves the table, and one completion
    for it is recorded. *)
Lemma terminate_pending (id : Z) (t : TerminalState) (s : Session) :
  is_Some (pending s !! id) →
  requestMessageId (terminate id t s) = requestMessageId s
  ∧ pending (terminate id t s) = delete id (pending s)
  ∧ channel (terminate id t s) = channel s
  ∧ completions (terminate id t s) = completions s ++ [(id, t)].
Proof. intros [p Hp]. unfold terminate. rewrite Hp. repeat split. Qed.

Lemma terminate_unknown (id : Z) (t : TerminalState) (s : Session) :
  pending s !! id = None → terminate id t s = s.
Proof. intros Hp. unfold terminate. now rewrite Hp. Qed.

Lemma cancelLocally_pending (id : Z) (reason : option string) (s : Session) :
  is_Some (pending s !! id) →
  requestMessageId (cancelLocally id reason s) = requestMessageId s
  ∧ pending (cancelLocally id reason s) = delete id (pending s)
  ∧ channel (cancelLocally id reason s) = channel s ++ [CancelledNotification id reason]
  ∧ completions (cancelLocally id reason s) = completions s ++ [(id, CancelledLocally reason)].
Proof. intros [p Hp]. unfold cancelLocally. rewrite Hp. repeat split. Qed.

Lemma cancelLocally_unknown (id : Z) (reason : option string) (s : Session) :
  pending s !! id = None → cancelLocally id reason s = s.
Proof. intros Hp. unfold cancelLocally. now rewrite Hp. Qed.

(** A request that is no longer pending and whose id the counter has passed
    stays that way, and no event adds a completion for it. *)
Lemma step_settled (R : Z) (s : Session) (e : Event) :
  pending s !! R = None →
  (R < requestMessageId s)%Z →
  pending (step s e) !! R = None
  ∧ (R < requestMessageId (step s e))%Z
  ∧ completions_of R (step s e) = completions_of R s.
Proof.
  intros Hp Hlt.
  assert (Hterm : ∀ id t,
             pending (terminate id t s) !! R = None
             ∧ (R < requestMessageId (terminate id t s))%Z
             ∧ completions_of R (terminate id t s) = completions_of R s).
  { intros id t. destruct (pending s !! id) as [p|] eqn:Hid.
    - destruct (terminate_pending id t s) as (Hc & Hpd & _ & Hcs); [rewrite Hid; now eexists |].
      rewrite Hc, Hpd. split; [|split; [assumption |]].
      + apply lookup_delete_None. now right.
      + rewrite (completions_of_snoc R id t s _ Hcs).
        rewrite decide_False by congruence. apply app_nil_r.
    - rewrite terminate_unknown by assumption. auto. }
  destruct e as [m tok|id reason|[id result|id code msg|m]]; cbn [step onMessage].
  - cbn. split; [|split; [lia | reflexivity]].
    apply lookup_insert_None. split; [assumption | lia].
  - destruct (pending s !! id) as [p|] eqn:Hid.
    + destruct (cancelLocally_pending id reason s) as (Hc & Hpd & _ & Hcs); [rewrite Hid; now eexists |].
      rewrite Hc, Hpd. split; [|split; [assumption |]].
      * apply lookup_delete_None. now right.
      * rewrite (completions_of_snoc R id _ s _ Hcs).
        rewrite decide_False by congruence. apply app_nil_r.
    + rewrite cancelLocally_unknown by assumption. auto.
  - apply Hterm.
  - apply Hterm.
  - auto.
Qed.

Lemma run_settled (R : Z) (later : list Event) :
  ∀ s : Session,
    pending s !! R = None →
    (R < requestMessageId s)%Z →
    completions_of R (run later s) = completions_of R s.
Proof.
  induction later as [|e later IH]; intros s Hp Hlt; [reflexivity |].
  rewrite run_cons. destruct (step_settled R s e Hp Hlt) as (Hp' & Hlt' & Hc').
  now rewrite IH, Hc'.
Qed.

Lemma connect_well_formed (init : Z) : well_formed init (connect init).
Proof.
  unfold well_formed, connect. cbn. split; [lia |]. split.
  - intros id [p Hp]. now rewrite lookup_empty in Hp.
  - reflexivity.
Qed.

Lemma step_well_formed (init : Z) (s : Session) (e : Event) :
  well_formed init s → well_formed init (step s e).
Proof.
  intros Hwf. pose proof Hwf as (Hinit & Hpend & Hfresh).
  assert (Hdone : ∀ (s' : Session) (id : Z) (t : TerminalState),
             is_Some (pending s !! id) →
             requestMessageId s' = requestMessageId s →
             pending s' = delete id (pending s) →
             completions s' = completions s ++ [(id, t)] →
             well_formed init s').
  { intros s' id t Hid Hc Hpd Hcs. unfold well_formed. rewrite Hc, Hpd.
    split; [assumption |]. split.
    - intros id' Hid'. apply lookup_delete_is_Some in Hid'. destruct Hid' as [Hne Hid'].
      destruct (Hpend id' Hid') as [Hr Hnone]. split; [assumption |].
      rewrite (completions_of_snoc id' id t s s' Hcs), Hnone.
      now rewrite decide_False by assumption.
    - intros id' Hge. rewrite (completions_of_snoc id' id t s s' Hcs), (Hfresh id' Hge).
      destruct (Hpend id Hid) as [Hr _]. rewrite decide_False by lia. reflexivity. }
  destruct e as [m tok|id reason|[id result|id code msg|m]]; cbn [step onMessage].
  - unfold well_formed. cbn. split; [lia |]. split.
    + intros id Hid. apply lookup_insert_is_Some in Hid. destruct Hid as [<-|[Hne Hid]].
      * split; [lia |]. apply Hfresh. lia.
      * destruct (Hpend id Hid) as [Hr Hnone]. split; [lia | assumption].
    + intros id Hge. apply Hfresh. lia.
  - destruct (pending s !! id) as [p|] eqn:Hid.
    + destruct (cancelLocally_pending id reason s) as (Hc & Hpd & _ & Hcs); [rewrite Hid; now eexists |].
      eapply Hdone; eauto.
    + rewrite cancelLocally_unknown by assumption. exact Hwf.
  - unfold resolve. destruct (pending s !! id) as [p|] eqn:Hid.
    + destruct (terminate_pending id (ResolvedWithResult result) s)
        as (Hc & Hpd & _ & Hcs); [rewrite Hid; now eexists |].
      eapply Hdone; eauto.
    + rewrite terminate_unknown by assumption. exact Hwf.
  - unfold reject. destruct (pending s !! id) as [p|] eqn:Hid.
    + destruct (terminate_pending id (ResolvedWithError code msg) s)
        as (Hc & Hpd & _ & Hcs); [rewrite Hid; now eexists |].
      eapply Hdone; eauto.
    + rewrite terminate_unknown by assumption. exact Hwf.
  - exact Hwf.
Qed.

Lemma run_well_formed (init : Z) (evs : list Event) :
  well_formed init (run evs (connect init)).
Proof.
  induction evs as [|e evs IH] using rev_ind.
  - apply connect_well_formed.
  - rewrite run_snoc. now apply step_well_formed.
Qed.

Lemma request_ids_snoc (ch : list Outgoing) (o : Outgoing) :
  request_ids (ch ++ [o])
  = request_ids ch ++ match o with
                      | RequestEnvelope id _ _ => [id]
                      | CancelledNotification _ _ => []
                      end.
Proof. unfold request_ids. rewrite omap_app. now destruct o. Qed.

(** The ids of the requests sent so far are the initial counter value and its
    successors, one per submission, and the counter is the next of them. *)
Lemma run_request_ids (init : Z) (evs : list Event) :
  request_ids (channel (run evs (connect init)))
  = map (λ k : nat, (init + Z.of_nat k)%Z) (seq 0 (submissions evs))
  ∧ requestMessageId (run evs (connect init)) = (init + Z.of_nat (submissions evs))%Z.
Proof.
  induction evs as [|e evs [IHids IHc]] using rev_ind.
  - cbn. split; [reflexivity | lia].
  - rewrite run_snoc, submissions_snoc.
    destruct e as [m tok|id reason|[id result|id code msg|m]]; cbn [step onMessage].
    + cbn [submit snd channel requestMessageId]. rewrite request_ids_snoc, IHids, IHc.
      rewrite Nat.add_1_r, seq_S, map_app. cbn. split; [reflexivity | lia].
    + rewrite Nat.add_0_r. destruct (pending (run evs (connect init)) !! id) as [p|] eqn:Hid.
      * destruct (cancelLocally_pending id reason (run evs (connect init)))
          as (Hc & _ & Hch & _); [rewrite Hid; now eexists |].
        rewrite Hc, Hch, request_ids_snoc, app_nil_r. now split.
      * rewrite cancelLocally_unknown by assumption. now split.
    + rewrite Nat.add_0_r. unfold resolve.
      destruct (pending (run evs (connect init)) !! id) as [p|] eqn:Hid.
      * destruct (terminate_pending id (ResolvedWithResult result) (run evs (connect init)))
          as (Hc & _ & Hch & _); [rewrite Hid; now eexists |].
        rewrite Hc, Hch. now split.
      * rewrite terminate_unknown by assumption. now split.
    + rewrite Nat.add_0_r. unfold reject.
      destruct (pending (run evs (connect init)) !! id) as [p|] eqn:Hid.
      * destruct (terminate_pending id (ResolvedWithError code msg) (run evs (connect init)))
          as (Hc & _ & Hch & _); [rewrite Hid; now eexists |].
        rewrite Hc, Hch. now split.
      * rewrite terminate_unknown by assumption. now split.
    + rewrite Nat.add_0_r. now split.
Qed.

Lemma consecutive_ids_sorted (init : Z) (n : nat) :
  ∀ a : nat, StronglySorted Z.lt (map (λ k : nat, (init + Z.of_nat k)%Z) (seq a n)).
Proof.
  induction n as [|n IH]; intros a; cbn; constructor.
  - apply IH.
  - apply Forall_map, Forall_seq. intros j Hj. cbn. lia.
Qed.

(** C8: whatever is submitted, cancelled and received in a session whose
    counter starts at [init], the ids of the requests it has sent are, in
    sending order, [init], [init + 1], ...: one per submission, whatever the
    method.  So they strictly increase and start at the initial counter value.
    The id the next submission allocates is the counter, which is not the id
    of any pending request, and the request sent carries it. *)
Theorem request_ids_strictly_increase :
  ∀ (init : Z) (evs : list Event) (m : string) (tok : option ProgressToken),
    let s := run evs (connect init) in
    request_ids (channel s) = map (λ k : nat, (init + Z.of_nat k)%Z) (seq 0 (submissions evs))
    ∧ StronglySorted Z.lt (request_ids (channel s))
    ∧ fst (submit m tok s) = requestMessageId s
    ∧ pending s !! fst (submit m tok s) = None
    ∧ (∀ id, is_Some (pending s !! id) → (init ≤ id < fst (submit m tok s))%Z)
    ∧ channel (snd (submit m tok s)) = channel s ++ [RequestEnvelope (fst (submit m tok s)) m tok]
    ∧ is_Some (pending (snd (submit m tok s)) !! fst (submit m tok s)).
Proof.
  intros init evs m tok s.
  destruct (run_request_ids init evs) as [Hids Hc]. fold s in Hids, Hc.
  destruct (run_well_formed init evs) as (Hinit & Hpend & _). fold s in Hinit, Hpend.
  split; [assumption |]. split; [rewrite Hids; apply consecutive_ids_sorted |].
  cbn [submit fst snd channel pending].
  split; [reflexivity |]. split.
  - destruct (pending s !! requestMessageId s) as [p|] eqn:Hp; [|reflexivity].
    destruct (Hpend (requestMessageId s)) as [Hr _]; [rewrite Hp; now eexists | lia].
  - split; [intros id Hid; now apply Hpend |]. split; [reflexivity |].
    rewrite lookup_insert_eq. now eexists.
Qed.

(** C4: let request [R] be pending in a session, that is, no terminal message
    for it has arrived, and let its caller cancel it.  Then the call has no
    completion before the cancellation and completes, at the cancellation, as
    cancelled with the reason given; a cancellation notification carrying [R]
    and the reason is put on the channel; and whatever happens later, a
    response or an error for [R] from the peer included, the completions of
    [R] remain that one cancellation. *)
Theorem cancelled_request_completes_as_cancelled_only :
  ∀ (init : Z) (history later : list Event) (R : Z) (reason : option string),
    let s := run history (connect init) in
    is_Some (pending s !! R) →
    completions_of R s = []
    ∧ completions (cancelLocally R reason s) = completions s ++ [(R, CancelledLocally reason)]
    ∧ channel (cancelLocally R reason s) = channel s ++ [CancelledNotification R reason]
    ∧ completions_of R (run later (cancelLocally R reason s)) = [CancelledLocally reason]
    ∧ (∀ (result : string) (code : Z) (msg : string),
         onMessage (ResponseEnvelope R result) (cancelLocally R reason s)
         = cancelLocally R reason s
         ∧ onMessage (ErrorEnvelope R code msg) (cancelLocally R reason s)
           = cancelLocally R reason s).
Proof.
  intros init history later R reason s HR.
  destruct (run_well_formed init history) as (_ & Hpend & _). fold s in Hpend.
  destruct (Hpend R HR) as [Hrange Hnone].
  destruct (cancelLocally_pending R reason s HR) as (Hc & Hpd & Hch & Hcs).
  assert (Hgone : pending (cancelLocally R reason s) !! R = None).
  { rewrite Hpd. apply lookup_delete_eq. }
  split; [assumption |]. split; [assumption |]. split; [assumption |]. split.
  - rewrite run_settled; [| assumption | rewrite Hc; lia].
    rewrite (completions_of_snoc R R _ s _ Hcs), Hnone.
    now rewrite decide_True by reflexivity.
  - intros result code msg. cbn [onMessage]. unfold resolve, reject.
    now rewrite !terminate_unknown by assumption.
Qed.

(** C4 at a session that submits a tools/call as request 0, cancels it and
    then receives the peer's late response for it. *)
Lemma cancelled_request_completes_as_cancelled_only_witness :
  completions_of 0
    (run [Receive (ResponseEnvelope 0 "late")]
       (cancelLocally 0 (Some "User requested cancellation")
          (run [Submit "tools/call" (Some (TokenNum 0))] (connect 0))))
  = [CancelledLocally (Some "User requested cancellation")].
Proof.
  refine (proj1 (proj2 (proj2 (proj2
            (cancelled_request_completes_as_cancelled_only 0
               [Submit "tools/call" (Some (TokenNum 0))]
               [Receive (ResponseEnvelope 0 "late")] 0
               (Some "User requested cancellation") _))))).
  cbn. rewrite lookup_insert_eq. now eexists.
Defined.

End ProtocolFacts.


(* ================================================================= *)
(** * Further properties of the server code *)

(** ** Arrays of strings *)

Lemma indexOf_from_spec (x : string) (l : list string) :
  ∀ k : Z,
    (includes l x = false ∧ indexOf_from k l x = (-1)%Z)
    ∨ (includes l x = true
       ∧ ∃ i : nat, indexOf_from k l x = (k + Z.of_nat i)%Z
                    ∧ l !! i = Some x
                    ∧ ∀ j : nat, j < i → l !! j ≠ Some x).
Proof.
  induction l as [|y l IH]; intros k; cbn [includes indexOf_from]; [now left |].
  destruct (String.eqb_spec y x) as [->|Hne].
  - right. split; [reflexivity |]. exists 0. split; [lia |]. split; [reflexivity |].
    intros j Hj. lia.
  - destruct (IH (k + 1)%Z) as [[Hinc Hidx]|(Hinc & i & Hidx & Hi & Hfirst)].
    + left. now split.
    + right. split; [assumption |]. exists (S i). split; [lia |]. split; [exact Hi |].
      intros [|j] Hj; cbn; [congruence | apply Hfirst; lia].
Qed.

(** [indexOf] and [includes] agree, as the guard of the setLevel handler and
    the comparison of [sendLoggingMessage] need: [indexOf] is -1 exactly when
    [includes] is false, and otherwise it is the first position holding the
    element, a position inside the array. *)
Theorem indexOf_agrees_with_includes :
  ∀ (l : list string) (x : string),
    (-1 ≤ indexOf l x < Z.of_nat (length l))%Z
    ∧ (includes l x = false ↔ indexOf l x = (-1)%Z)
    ∧ (includes l x = true ↔ (0 ≤ indexOf l x)%Z)
    ∧ (∀ i : nat, indexOf l x = Z.of_nat i →
                  l !! i = Some x ∧ ∀ j : nat, j < i → l !! j ≠ Some x).
Proof.
  intros l x. unfold indexOf.
  destruct (indexOf_from_spec x l 0) as [[Hinc Hidx]|(Hinc & i & Hidx & Hi & Hfirst)].
  - rewrite Hidx, Hinc. split; [lia |]. split; [tauto |]. split.
    + split; [discriminate | lia].
    + intros i Hi. lia.
  - rewrite Hidx, Hinc. pose proof (lookup_lt_Some l i x Hi) as Hlt.
    split; [lia |]. split; [split; [discriminate | lia] |]. split; [split; [lia | reflexivity] |].
    intros i' Hi'. assert (i' = i) as -> by lia. now split.
Qed.

(** ** Completion *)

Lemma startsWith_spec (v : string) :
  ∀ s : string, startsWith s v = true ↔ ∃ r : string, s = v +:+ r.
Proof.
  unfold startsWith. induction v as [|a v IH]; intros s.
  - split; [intros _; now exists s | intros _; now destruct s].
  - destruct s as [|b s]; cbn [String.prefix].
    + split; [discriminate | intros [r Hr]; discriminate Hr].
    + destruct (Ascii.ascii_dec a b) as [->|Hne].
      * rewrite IH. split; intros [r Hr]; exists r.
        -- change (String b v +:+ r) with (String b (v +:+ r)). now rewrite Hr.
        -- change (String b v +:+ r) with (String b (v +:+ r)) in Hr. now injection Hr.
      * split; [discriminate | intros [r Hr]].
        change (String a v +:+ r) with (String a (v +:+ r)) in Hr. congruence.
Qed.

(** The completion callback of the [language] argument returns exactly the
    candidates that start with what was typed, in the order ['python',
    'pytorch', 'pyside']; the empty input returns them all, and typing more
    never brings back a candidate that was already ruled out. *)
Theorem complete_language_filters_by_prefix :
  ∀ (v w s : string),
    (s ∈ complete_language v
       ↔ s ∈ ["python"; "pytorch"; "pyside"] ∧ ∃ r : string, s = v +:+ r)
    ∧ complete_language v `sublist_of` ["python"; "pytorch"; "pyside"]
    ∧ complete_language (v +:+ w) `sublist_of` complete_language v
    ∧ complete_language "" = ["python"; "pytorch"; "pyside"].
Proof.
  intros v w s. unfold complete_language. split; [|split; [|split]].
  - rewrite list_elem_of_filter, Is_true_true, startsWith_spec. tauto.
  - apply sublist_filter.
  - rewrite <- (list_filter_filter_l (λ s, startsWith s (v +:+ w)) (λ s, startsWith s v)).
    + apply sublist_filter.
    + intros x. rewrite !Is_true_true, !startsWith_spec. intros [r ->].
      exists (w +:+ r). clear. induction v as [|a v IH]; [reflexivity |].
      change (String a v +:+ w +:+ r) with (String a (v +:+ w +:+ r)).
      change (String a v +:+ w) with (String a (v +:+ w)).
      change (String a (v +:+ w) +:+ r) with (String a ((v +:+ w) +:+ r)).
      now rewrite IH.
  - reflexivity.
Qed.

(** ** Subscriptions as a set *)

Lemma set_subscribedResources_ext (f g : gset string → gset string) (s : ServerState) :
  f (subscribedResources s) = g (subscribedResources s) →
  set_subscribedResources f s = set_subscribedResources g s.
Proof. intros H. unfold set_subscribedResources. now rewrite H. Qed.

(** Subscribing and unsubscribing act on a set: each is idempotent, one
    unsubscribe undoes any number of subscribes, unsubscribing what is not
    subscribed changes nothing, and requests for different uris commute. *)
Theorem subscriptions_form_a_set :
  ∀ (s : ServerState) (u v : string),
    snd (subscribeHandler u (snd (subscribeHandler u s))) = snd (subscribeHandler u s)
    ∧ snd (unsubscribeHandler u (snd (unsubscribeHandler u s))) = snd (unsubscribeHandler u s)
    ∧ snd (unsubscribeHandler u (snd (subscribeHandler u (snd (subscribeHandler u s)))))
      = snd (unsubscribeHandler u s)
    ∧ (u ∉ subscribedResources s → snd (unsubscribeHandler u s) = s)
    ∧ snd (subscribeHandler u (snd (subscribeHandler v s)))
      = snd (subscribeHandler v (snd (subscribeHandler u s)))
    ∧ (u ≠ v →
       snd (subscribeHandler u (snd (unsubscribeHandler v s)))
       = snd (unsubscribeHandler v (snd (subscribeHandler u s)))).
Proof.
  intros s u v. unfold subscribeHandler, unsubscribeHandler. cbn [snd].
  assert (Hext : ∀ X Y : gset string,
             X = Y →
             {| subscribedResources := X; currentLogLevel := currentLogLevel s;
                transports := transports s; sent := sent s |}
             = {| subscribedResources := Y; currentLogLevel := currentLogLevel s;
                  transports := transports s; sent := sent s |}).
  { intros X Y ->. reflexivity. }
  unfold set_subscribedResources. cbn [subscribedResources currentLogLevel transports sent].
  repeat split.
  - apply Hext, set_eq. intros z. rewrite !elem_of_union. tauto.
  - apply Hext, set_eq. intros z. rewrite !elem_of_difference. tauto.
  - apply Hext, set_eq. intros z.
    rewrite !elem_of_difference, !elem_of_union, !elem_of_singleton. tauto.
  - intros Hnot. destruct s as [X lv T st]. cbn in *. f_equal.
    apply set_eq. intros z. rewrite elem_of_difference, elem_of_singleton.
    split; [tauto |]. intros Hz. split; [assumption |]. intros ->. contradiction.
  - apply Hext, set_eq. intros z. rewrite !elem_of_union. tauto.
  - intros Hne. apply Hext, set_eq. intros z.
    rewrite !elem_of_union, !elem_of_difference, !elem_of_union, !elem_of_singleton.
    split; [|tauto]. intros [->|[Hz Hzv]]; [|tauto]. split; [now left | congruence].
Qed.

(** ** Runs of the server *)

Lemma server_run_snoc (evs : list ServerEvent) (e : ServerEvent) (s : ServerState) :
  server_run (evs ++ [e]) s = server_step (server_run evs s) e.
Proof. unfold server_run. now rewrite fold_left_app. Qed.

Lemma server_run_cons (e : ServerEvent) (evs : list ServerEvent) (s : ServerState) :
  server_run (e :: evs) s = server_run evs (server_step s e).
Proof. reflexivity. Qed.

(** The state after a request is the state after the arrow function of its
    handler; the schema of logging/setLevel lets through only what the arrow
    function would act on. *)
Lemma dispatch_state (req : ClientRequest) (s : ServerState) :
  snd (dispatch req s)
  = match req with
    | SubscribeRequest u => snd (subscribeHandler u s)
    | UnsubscribeRequest u => snd (unsubscribeHandler u s)
    | SetLevelRequest lvl => snd (setLevelHandler lvl s)
    end.
Proof. destruct req as [u|u|lvl]; cbn [dispatch]; [reflexivity | reflexivity |].
  apply setLevelRequestHandler_state.
Qed.

Lemma dispatch_sent (req : ClientRequest) (s : ServerState) :
  sent (snd (dispatch req s)) = sent s.
Proof.
  rewrite dispatch_state. destruct req as [u|u|lvl];
    unfold subscribeHandler, unsubscribeHandler, setLevelHandler; cbn [snd];
    [reflexivity | reflexivity |].
  now destruct (includes levels lvl).
Qed.

Lemma dispatch_transports (req : ClientRequest) (s : ServerState) :
  transports (snd (dispatch req s)) = transports s.
Proof.
  rewrite dispatch_state. destruct req as [u|u|lvl];
    unfold subscribeHandler, unsubscribeHandler, setLevelHandler; cbn [snd];
    [reflexivity | reflexivity |].
  now destruct (includes levels lvl).
Qed.

Lemma dispatch_level (req : ClientRequest) (s : ServerState) :
  currentLogLevel (snd (dispatch req s)) = currentLogLevel s
  ∨ ∃ v : Severity, currentLogLevel (snd (dispatch req s)) = severity_name v.
Proof.
  rewrite dispatch_state. destruct req as [u|u|lvl];
    unfold subscribeHandler, unsubscribeHandler, setLevelHandler; cbn [snd];
    [now left | now left |].
  destruct (includes levels lvl) eqn:E; [|now left].
  right. apply includes_levels_severity in E. destruct E as [v ->]. now exists v.
Qed.

(** A posted request is handled by [dispatch] or, under an id no session is
    attached under, leaves the state as it is. *)
Lemma postMessages_state (sid : string) (req : ClientRequest) (s : ServerState) :
  snd (postMessages sid req s) = s
  ∨ (is_Some (transports s !! sid) ∧ snd (postMessages sid req s) = snd (dispatch req s)).
Proof.
  unfold postMessages. destruct (transports s !! sid) as [t|] eqn:E.
  - right. split; [now eexists |]. now destruct (dispatch req s).
  - left. now destruct (includes Object_prototype_names sid).
Qed.

Lemma sendResourceUpdated_cases (uri : string) (s : ServerState) :
  (uri ∈ subscribedResources s
   ∧ sendResourceUpdated uri s = send (ResourceUpdatedNotification uri) s)
  ∨ ((uri ∉ subscribedResources s) ∧ sendResourceUpdated uri s = s).
Proof.
  unfold sendResourceUpdated, originalSendResourceUpdated.
  destruct (decide (uri ∈ subscribedResources s)); [left | right]; now split.
Qed.

Lemma sendLoggingMessage_cases (params : LoggingMessageParams) (s : ServerState) :
  ((indexOf levels (currentLogLevel s) ≤ indexOf levels (level params))%Z
   ∧ sendLoggingMessage params s = send (LoggingMessageNotification params) s)
  ∨ ((indexOf levels (level params) < indexOf levels (currentLogLevel s))%Z
     ∧ sendLoggingMessage params s = s).
Proof.
  unfold sendLoggingMessage, originalSendLoggingMessage.
  destruct (Z.geb_spec (indexOf levels (level params)) (indexOf levels (currentLogLevel s)));
    [left | right]; split; first [lia | reflexivity].
Qed.

Lemma indexOf_levels_unknown (x : string) :
  (∀ v : Severity, x ≠ severity_name v) → indexOf levels x = (-1)%Z.
Proof.
  intros Hx. unfold indexOf.
  destruct (indexOf_from_spec x levels 0) as [[_ Hidx]|[Hinc _]]; [assumption |].
  apply includes_levels_severity in Hinc. destruct Hinc as [v ->]. now destruct (Hx v).
Qed.

Lemma server_step_level (s : ServerState) (e : ServerEvent) :
  (∃ v : Severity, currentLogLevel s = severity_name v) →
  ∃ v : Severity, currentLogLevel (server_step s e) = severity_name v.
Proof.
  intros Hv. destruct e as [sid|sid|sid req|uri|params]; cbn [server_step].
  - exact Hv.
  - exact Hv.
  - destruct (postMessages_state sid req s) as [->|[_ ->]]; [exact Hv |].
    destruct (dispatch_level req s) as [->|H]; assumption.
  - destruct (sendResourceUpdated_cases uri s) as [[_ ->]|[_ ->]]; exact Hv.
  - destruct (sendLoggingMessage_cases params s) as [[_ ->]|[_ ->]]; exact Hv.
Qed.

Lemma server_run_level (evs : list ServerEvent) :
  ∃ v : Severity, currentLogLevel (server_run evs startServer) = severity_name v.
Proof.
  induction evs as [|e evs IH] using rev_ind.
  - now exists Info.
  - rewrite server_run_snoc. now apply server_step_level.
Qed.

(** However the server has been used since it started, its log threshold is
    one of the eight severities (a setLevel with any other level never
    replaces it), and a log record whose level is none of the eight is
    dropped. *)
Theorem log_threshold_stays_a_severity :
  ∀ (evs : list ServerEvent) (params : LoggingMessageParams),
    (∃ v : Severity, currentLogLevel (server_run evs startServer) = severity_name v)
    ∧ ((∀ v : Severity, level params ≠ severity_name v) →
       sendLoggingMessage params (server_run evs startServer) = server_run evs startServer).
Proof.
  intros evs params. split; [apply server_run_level |]. intros Hunknown.
  destruct (server_run_level evs) as [thr Hthr].
  destruct (sendLoggingMessage_cases params (server_run evs startServer)) as [[Hle _]|[_ H]];
    [|exact H].
  rewrite Hthr, indexOf_severity_name, (indexOf_levels_unknown _ Hunknown) in Hle. lia.
Qed.

(** In every state the server can reach, the log gate is closed upwards: if
    a record of some severity is sent on, so is any record of that severity
    or a higher one. *)
Theorem log_gate_is_upward_closed :
  ∀ (evs : list ServerEvent) (sev sev' : Severity) (p p' : LoggingMessageParams),
    level p = severity_name sev →
    level p' = severity_name sev' →
    severity_rank sev ≤ severity_rank sev' →
    sent (sendLoggingMessage p (server_run evs startServer))
    = sent (server_run evs startServer) ++ [LoggingMessageNotification p] →
    sent (sendLoggingMessage p' (server_run evs startServer))
    = sent (server_run evs startServer) ++ [LoggingMessageNotification p'].
Proof.
  intros evs sev sev' p p' Hp Hp' Hle Hsent.
  destruct (server_run_level evs) as [thr Hthr].
  apply (sendLoggingMessage_gate_iff _ thr sev p Hthr Hp) in Hsent.
  apply (sendLoggingMessage_gate_iff _ thr sev' p' Hthr Hp'). lia.
Qed.

(** The upward closure after a session has set the level to [warning]: a
    [warning] record is sent on, hence so is an [alert] record. *)
Lemma log_gate_is_upward_closed_witness :
  sent (sendLoggingMessage {| level := "alert"; logger := None; data := "y" |}
          (server_run [Connect "a"; Post "a" (SetLevelRequest "warning")] startServer))
  = sent (server_run [Connect "a"; Post "a" (SetLevelRequest "warning")] startServer)
    ++ [LoggingMessageNotification {| level := "alert"; logger := None; data := "y" |}].
Proof.
  apply (log_gate_is_upward_closed [Connect "a"; Post "a" (SetLevelRequest "warning")]
           Warning Alert {| level := "warning"; logger := None; data := "x" |}
           {| level := "alert"; logger := None; data := "y" |} eq_refl eq_refl).
  - cbn. lia.
  - vm_compute. reflexivity.
Defined.

Lemma server_step_sent (s : ServerState) (e : ServerEvent) :
  sent (server_step s e) = sent s
  ∨ match e with
    | UpdateResource uri =>
        uri ∈ subscribedResources s
        ∧ sent (server_step s e) = sent s ++ [ResourceUpdatedNotification uri]
    | LogMessage params =>
        (indexOf levels (currentLogLevel s) ≤ indexOf levels (level params))%Z
        ∧ sent (server_step s e) = sent s ++ [LoggingMessageNotification params]
    | _ => False
    end.
Proof.
  destruct e as [sid|sid|sid req|uri|params]; cbn [server_step].
  - now left.
  - now left.
  - left. destruct (postMessages_state sid req s) as [->|[_ ->]];
      [reflexivity | apply dispatch_sent].
  - destruct (sendResourceUpdated_cases uri s) as [[Hin ->]|[_ ->]]; [right | left]; easy.
  - destruct (sendLoggingMessage_cases params s) as [[Hle ->]|[_ ->]]; [right | left]; easy.
Qed.

(** What the server has sent only grows, by at most one notification for
    each call of [sendResourceUpdated] or [sendLoggingMessage]; handling
    requests and attaching or closing sessions sends nothing. *)
Theorem sent_log_only_grows :
  ∀ (evs : list ServerEvent) (s : ServerState),
    sent s `prefix_of` sent (server_run evs s)
    ∧ length (sent (server_run evs s)) ≤ length (sent s) + send_calls evs
    ∧ (send_calls evs = 0 → sent (server_run evs s) = sent s).
Proof.
  assert (Hgrow : ∀ (evs : list ServerEvent) (s : ServerState),
             ∃ more, sent (server_run evs s) = sent s ++ more ∧ length more ≤ send_calls evs).
  { induction evs as [|e evs IH]; intros s.
    - exists []. split; [now rewrite app_nil_r | reflexivity].
    - rewrite server_run_cons. destruct (IH (server_step s e)) as (more & Hmore & Hlen).
      destruct (server_step_sent s e) as [Hsame|Hadd].
      + exists more. split; [now rewrite Hmore, Hsame |].
        destruct e; cbn [send_calls]; lia.
      + destruct e as [sid|sid|sid req|uri|params]; try contradiction;
          destruct Hadd as [_ Hadd]; eexists (_ :: more);
          (split; [rewrite Hmore, Hadd, <- app_assoc; reflexivity | cbn; lia]). }
  intros evs s. destruct (Hgrow evs s) as (more & Hmore & Hlen).
  split; [now exists more |]. split; [rewrite Hmore, length_app; lia |].
  intros Hzero. rewrite Hmore. destruct more; [apply app_nil_r | cbn in Hlen; lia].
Qed.

(** Whether every notification of a list was called for by some event of a
    run and could pass its gate: a resource update needs an update call and
    a subscribe request for its uri, a log record needs a log call and one of
    the eight levels, and a progress notification never qualifies. *)
Lemma server_run_sent_justified (evs : list ServerEvent) :
  (∀ uri : string,
     uri ∈ subscribedResources (server_run evs startServer) →
     ∃ sid : string, Post sid (SubscribeRequest uri) ∈ evs)
  ∧ (∀ n : Notification,
       n ∈ sent (server_run evs startServer) →
       match n with
       | ResourceUpdatedNotification uri =>
           UpdateResource uri ∈ evs ∧ ∃ sid : string, Post sid (SubscribeRequest uri) ∈ evs
       | LoggingMessageNotification params =>
           LogMessage params ∈ evs ∧ ∃ v : Severity, level params = severity_name v
       | ProgressNotification _ => False
       end).
Proof.
  induction evs as [|e evs [IHsub IHsent]] using rev_ind.
  - split; [intros uri H; now apply not_elem_of_empty in H |].
    intros n H. now apply elem_of_nil in H.
  - rewrite server_run_snoc. set (s := server_run evs startServer) in *.
    assert (Hsub : ∀ uri : string,
               uri ∈ subscribedResources (server_step s e) →
               ∃ sid : string, Post sid (SubscribeRequest uri) ∈ evs ++ [e]).
    { intros uri Hin.
      assert (Hold : uri ∈ subscribedResources s →
                     ∃ sid : string, Post sid (SubscribeRequest uri) ∈ evs ++ [e]).
      { intros H. destruct (IHsub uri H) as [sid Hsid]. exists sid.
        apply elem_of_app. now left. }
      destruct e as [sid|sid|sid req|u|params]; cbn [server_step] in Hin.
      - now apply Hold.
      - now apply Hold.
      - destruct (postMessages_state sid req s) as [Heq|[_ Heq]]; rewrite Heq in Hin;
          [now apply Hold |].
        apply subscribedResources_dispatch in Hin. destruct req as [u|u|lvl].
        + destruct Hin as [->|Hin]; [|now apply Hold].
          exists sid. apply elem_of_app. right. now apply list_elem_of_singleton.
        + destruct Hin as [Hin _]. now apply Hold.
        + now apply Hold.
      - destruct (sendResourceUpdated_cases u s) as [[_ Heq]|[_ Heq]]; rewrite Heq in Hin;
          now apply Hold.
      - destruct (sendLoggingMessage_cases params s) as [[_ Heq]|[_ Heq]]; rewrite Heq in Hin;
          now apply Hold. }
    split; [exact Hsub |]. intros n Hn.
    assert (Hold : n ∈ sent s →
                   match n with
                   | ResourceUpdatedNotification uri =>
                       UpdateResource uri ∈ evs ++ [e]
                       ∧ ∃ sid : string, Post sid (SubscribeRequest uri) ∈ evs ++ [e]
                   | LoggingMessageNotification params =>
                       LogMessage params ∈ evs ++ [e]
                       ∧ ∃ v : Severity, level params = severity_name v
                   | ProgressNotification _ => False
                   end).
    { intros H. specialize (IHsent n H). destruct n as [uri|params|pp]; [| |exact IHsent].
      - destruct IHsent as [H1 [sid H2]]. split; [apply elem_of_app; now left |].
        exists sid. apply elem_of_app. now left.
      - destruct IHsent as [H1 H2]. split; [apply elem_of_app; now left | exact H2]. }
    destruct (server_step_sent s e) as [Hsame|Hadd]; [rewrite Hsame in Hn; now apply Hold |].
    destruct e as [sid|sid|sid req|uri|params]; try contradiction.
    + destruct Hadd as [Hin Hadd]. rewrite Hadd in Hn. apply elem_of_app in Hn.
      destruct Hn as [Hn|Hn]; [now apply Hold |].
      apply list_elem_of_singleton in Hn. subst n.
      split; [apply elem_of_app; right; now apply list_elem_of_singleton |].
      destruct (IHsub uri Hin) as [sid Hsid]. exists sid. apply elem_of_app. now left.
    + destruct Hadd as [Hle Hadd]. rewrite Hadd in Hn. apply elem_of_app in Hn.
      destruct Hn as [Hn|Hn]; [now apply Hold |].
      apply list_elem_of_singleton in Hn. subst n.
      split; [apply elem_of_app; right; now apply list_elem_of_singleton |].
      destruct (server_run_level evs) as [thr Hthr]. fold s in Hthr.
      rewrite Hthr, indexOf_severity_name in Hle.
      destruct (indexOf_from_spec (level params) levels 0) as [[_ Hidx]|[Hinc _]].
      * unfold indexOf in Hle. rewrite Hidx in Hle. lia.
      * now apply includes_levels_severity.
Qed.

(** Whatever the server has sent since it started was called for and passed
    its gate: a resources/updated notification for a uri only after a call of
    [sendResourceUpdated] for that uri and a subscribe request for it, a log
    record only after a call of [sendLoggingMessage] with it and only with one
    of the eight levels; the server-side log never holds a progress
    notification. *)
Theorem server_sends_only_what_was_triggered :
  ∀ (evs : list ServerEvent) (n : Notification),
    n ∈ sent (server_run evs startServer) →
    match n with
    | ResourceUpdatedNotification uri =>
        UpdateResource uri ∈ evs ∧ ∃ sid : string, Post sid (SubscribeRequest uri) ∈ evs
    | LoggingMessageNotification params =>
        LogMessage params ∈ evs ∧ ∃ v : Severity, level params = severity_name v
    | ProgressNotification _ => False
    end.
Proof. intros evs n. apply server_run_sent_justified. Qed.

(** The property at a run in which session ["a"] subscribes to [file:///R]
    and an update on it follows. *)
Lemma server_sends_only_what_was_triggered_witness :
  UpdateResource "file:///R"
    ∈ [Connect "a"; Post "a" (SubscribeRequest "file:///R"); UpdateResource "file:///R"]
  ∧ ∃ sid : string,
      Post sid (SubscribeRequest "file:///R")
        ∈ [Connect "a"; Post "a" (SubscribeRequest "file:///R"); UpdateResource "file:///R"].
Proof.
  apply (server_sends_only_what_was_triggered
           [Connect "a"; Post "a" (SubscribeRequest "file:///R"); UpdateResource "file:///R"]
           (ResourceUpdatedNotification "file:///R")).
  vm_compute. left.
Defined.

(** ** Sessions come and go, the server's state stays *)

(** The reply to a request does not depend on the state: the empty result,
    or for logging/setLevel what the schema throws. *)
Lemma dispatch_reply (req : ClientRequest) (s : ServerState) :
  fst (dispatch req s)
  = match req with
    | SetLevelRequest lvl =>
        match SetLevelRequestSchema_parse lvl with
        | Return _ => Return empty_result
        | Throw e => Throw e
        end
    | _ => Return empty_result
    end.
Proof.
  destruct req as [u|u|lvl]; cbn [dispatch]; [reflexivity | reflexivity |].
  unfold setLevelRequestHandler. now destruct (SetLevelRequestSchema_parse lvl).
Qed.

(** A session that has attached gets its requests handled: the reply is the
    empty result, or the schema's error for a setLevel with an invalid level.
    Once its transport has closed, a post under its id changes nothing and is
    answered "Session not found" (or, were the id a name inherited from
    [Object.prototype], ends in the [TypeError] of the missing
    [handlePostMessage]).  Attaching or closing one session does not change
    how a post under another id is answered.  Closing a session removes only
    its transport: the subscriptions it made remain, so that an update on a
    uri it subscribed to is still sent. *)
Theorem sessions_attach_and_close :
  ∀ (s : ServerState) (sid sid' uri : string) (req : ClientRequest),
    fst (postMessages sid req (getSse sid s))
    = Handled match req with
              | SetLevelRequest lvl =>
                  match SetLevelRequestSchema_parse lvl with
                  | Return _ => Return empty_result
                  | Throw e => Throw e
                  end
              | _ => Return empty_result
              end
    ∧ postMessages sid req (onclose sid s)
      = (if includes Object_prototype_names sid then NotAFunction else SessionNotFound,
         onclose sid s)
    ∧ (sid' ≠ sid →
       fst (postMessages sid' req (getSse sid s)) = fst (postMessages sid' req s)
       ∧ fst (postMessages sid' req (onclose sid s)) = fst (postMessages sid' req s))
    ∧ subscribedResources (onclose sid s) = subscribedResources s
    ∧ currentLogLevel (onclose sid s) = currentLogLevel s
    ∧ sent (sendResourceUpdated uri
              (onclose sid (snd (postMessages sid (SubscribeRequest uri) (getSse sid s)))))
      = sent s ++ [ResourceUpdatedNotification uri].
Proof.
  intros s sid sid' uri req.
  assert (Hpost : ∀ (x : string) (s0 : ServerState),
             fst (postMessages x req s0)
             = match transports s0 !! x with
               | None => if includes Object_prototype_names x
                         then NotAFunction else SessionNotFound
               | Some _ => Handled (fst (dispatch req s))
               end).
  { intros x s0. unfold postMessages. destruct (transports s0 !! x).
    - rewrite (dispatch_reply req s), <- (dispatch_reply req s0).
      now destruct (dispatch req s0).
    - now destruct (includes Object_prototype_names x). }
  split; [|split; [|split; [|split; [|split]]]].
  - rewrite Hpost, dispatch_reply. unfold getSse, set_transports. cbn [transports].
    now rewrite lookup_insert_eq.
  - unfold postMessages, onclose, set_transports. cbn [transports].
    rewrite lookup_delete_eq. now destruct (includes Object_prototype_names sid).
  - intros Hne. rewrite !Hpost. unfold getSse, onclose, set_transports. cbn [transports].
    rewrite lookup_insert_ne by congruence. rewrite lookup_delete_ne by congruence.
    now split.
  - reflexivity.
  - reflexivity.
  - rewrite postMessages_connected
      by (unfold getSse, set_transports; cbn [transports]; rewrite lookup_insert_eq;
          now eexists).
    unfold sendResourceUpdated, originalSendResourceUpdated.
    rewrite decide_True; [reflexivity |]. cbn.
    apply elem_of_union. left. now apply elem_of_singleton.
Qed.

(** ** What the read override leaves alone *)

(** The override changes nothing but an [Error] with code -32602: a result is
    handed on as it is, the notifications of the original handler are kept in
    every case, any other thrown value (an [Error] with another code or
    without one, such as [Error('Cancelled')], or a value that is no [Error]
    whatever its code) is rethrown unchanged.  What the override throws is
    never an [Error] with code -32602, and wrapping a handler twice is the
    same as wrapping it once. *)
Theorem readOverride_rewrites_only_invalid_params :
  ∀ (h : ReadHandler) (request : ReadResourceRequest) (extra : RequestHandlerExtra),
    fst (readOverride h request extra) = fst (h request extra)
    ∧ (∀ r : ReadResourceResult,
         snd (h request extra) = Return r → readOverride h request extra = h request extra)
    ∧ (∀ e : Thrown,
         snd (h request extra) = Throw e →
         instanceof_Error e = false ∨ code_of e ≠ Some (-32602)%Z →
         readOverride h request extra = h request extra)
    ∧ (∀ e : Thrown,
         snd (readOverride h request extra) = Throw e →
         instanceof_Error e = true →
         code_of e ≠ Some (-32602)%Z)
    ∧ readOverride (readOverride h) request extra = readOverride h request extra.
Proof.
  intros h request extra. unfold readOverride.
  destruct (h request extra) as [out [r|e]]; cbn [fst snd].
  - split; [reflexivity |]. split; [reflexivity |]. split; [reflexivity |].
    split; [discriminate | reflexivity].
  - destruct (instanceof_Error e) eqn:Hinst; cbn [andb].
    + destruct (bool_decide (code_of e = Some (-32602)%Z)) eqn:Hcode.
      * cbn [fst snd instanceof_Error code_of andb].
        split; [reflexivity |]. split; [discriminate |]. split.
        { intros e' He'. injection He' as <-. intros [H|H]; [congruence |].
          apply bool_decide_eq_true in Hcode. contradiction. }
        split; [|now destruct (bool_decide (Some (-32002)%Z = Some (-32602)%Z))].
        intros e' He' _. injection He' as <-. discriminate.
      * cbn [fst snd]. rewrite Hinst, Hcode. cbn [andb].
        split; [reflexivity |]. split; [discriminate |]. split; [reflexivity |].
        split; [|reflexivity].
        intros e' He' _. injection He' as <-. now apply bool_decide_eq_false in Hcode.
    + cbn [fst snd]. rewrite Hinst. cbn [andb].
      split; [reflexivity |]. split; [discriminate |]. split; [reflexivity |].
      split; [|reflexivity].
      intros e' He' He''. injection He' as <-. congruence.
Qed.

(** The override at a handler that throws [Error('Cancelled')]. *)
Lemma readOverride_keeps_cancellation :
  readOverride (λ request extra, slow_resource {| href := read_uri request |} extra)
    {| read_uri := "file:///slow/data.txt" |}
    {| _meta := None; signal_aborted := aborted_from 1; sendNotification := always_resolves |}
  = ([], Throw (JsError "Cancelled")).
Proof. vm_compute. reflexivity. Qed.

(** ** The template handler and the shape of every run *)

(** The template handler on the path [slow/data.txt] behaves like the other
    slow handlers over its three iterations: it throws [Error('Cancelled')]
    at the first checkpoint that reads the signal aborted, ends with the
    error of the first sending that rejects, and otherwise sends its three
    notifications and returns the file.  On the path [project/src/main.rs] it
    neither reads the signal nor sends anything, so it returns the file
    whatever the signal and the sendings do. *)
Theorem file_template_known_paths :
  ∀ (_uri : URL) (extra : RequestHandlerExtra),
    cooperative 3 (file_template _uri {| path := "slow/data.txt" |})
      {| contents := [{| contents_uri := "http://example.com/slow/data.txt";
                         mimeType := "text/plain";
                         contents_text := "slow resource" |}] |}
    ∧ file_template _uri {| path := "project/src/main.rs" |} extra
      = ([], Return {| contents := [{| contents_uri := "http://example.com/project/src/main.rs";
                                       mimeType := "text/x-rust";
                                       contents_text := main_rs_text |}] |}).
Proof.
  intros _uri extra. split; [|reflexivity].
  apply (run_steps_cooperative 3).
Qed.

(** Whatever the abort signal and the sendings do, a run of [slow_echo],
    [slow_prompt] or [slow-resource] passes the progress notifications 1, 2,
    ..., n to [sendNotification], for some n that does not exceed the
    handler's total (5, 5, 3), each with that total.  It returns its result
    only when n is the total and every sending resolved; otherwise it throws
    [Error('Cancelled')], the checkpoint after n having read the signal
    aborted, or it throws what the sending of notification n rejected with. *)
Theorem slow_handlers_progress_is_bounded :
  ∀ (msg : string) (delay : Z) (uri : URL) (extra : RequestHandlerExtra),
    bounded_progress 5 extra (slow_echo msg delay extra)
      {| content := [{| content_type := "text"; text := msg |}] |}
    ∧ bounded_progress 5 extra (slow_prompt msg extra)
        {| description := "Slow prompt";
           messages := [{| role := "user";
                           message_content := {| content_type := "text"; text := msg |} |}] |}
    ∧ bounded_progress 3 extra (slow_resource uri extra)
        {| contents := [{| contents_uri := "file:///slow/data.txt";
                           mimeType := "text/plain";
                           contents_text := "slow resource" |}] |}.
Proof.
  intros msg delay uri extra. split; [|split]; apply run_steps_bounded.
Qed.

(** ** The logging transport *)

Lemma transport_run_cons (e : TransportEvent) (evs : list TransportEvent) (t : TransportState) :
  transport_run (e :: evs) t = transport_run evs (transport_step t e).
Proof. reflexivity. Qed.

(** The transport records in [received] every message the inner transport
    hands over once [start()] has run, in arrival order and whether or not a
    handler is set at that moment, and nothing before [start()]; what reaches
    the handler is a part of these messages, in the same order. *)
Theorem transport_records_what_it_delivers :
  ∀ (evs : list TransportEvent) (t : TransportState),
    received (transport_run evs t)
    = received t ++ messages_since_start (inner_onmessage t) evs
    ∧ ∃ passed : list JSON,
        delivered (transport_run evs t) = delivered t ++ passed
        ∧ passed `sublist_of` messages_since_start (inner_onmessage t) evs.
Proof.
  induction evs as [|e evs IH]; intros t.
  - cbn. rewrite app_nil_r. split; [reflexivity |]. exists []. now rewrite app_nil_r.
  - rewrite transport_run_cons. destruct (IH (transport_step t e)) as (Hrec & passed & Hdel & Hsub).
    rewrite Hrec, Hdel. destruct e as [|h|m]; cbn [transport_step messages_since_start].
    + cbn. split; [reflexivity |]. now exists passed.
    + cbn. split; [reflexivity |]. now exists passed.
    + unfold transport_step in Hsub |- *.
      destruct (inner_onmessage t) eqn:Hstart; cbn [inner_onmessage received delivered] in *.
      * rewrite <- app_assoc. split; [reflexivity |].
        destruct (onmessage_set t).
        -- exists (m :: passed). rewrite <- app_assoc. split; [reflexivity |].
           cbn. now apply sublist_skip.
        -- exists passed. split; [reflexivity |]. cbn. now apply sublist_cons.
      * rewrite Hstart in Hsub |- *. cbn. split; [reflexivity |]. now exists passed.
Qed.
